(** * order_log_files.py: routing of log files per service and error audit

    Shallow embedding of [src/order-logfiles/order_log_files.py]:
    the two compiled patterns ([log_format_regex], [log_error_regex]) over a
    small backtracking matcher that follows Python's [re] on the operators
    the patterns use, the file-system calls the script makes ([exists],
    [mkdir], [shutil.move], [glob], [rglob], [read_text], [open(..., 'w')])
    over a flat directory listing, and the three pieces of code themselves:
    [organize_logs], [find_error_in_logs] and the [__main__] block. *)

From Stdlib Require Import Ascii String DecimalString.
From stdpp Require Import base option list strings.

Set Default Proof Using "Type".

(* ================================================================== *)
(** ** Text *)

(** Python [str] values are modelled as lists of characters, the
    characters being the code points below 256 (ASCII and Latin-1). *)
Definition text := list ascii.

Definition str (s : string) : text := list_ascii_of_string s.

Definition LF : ascii := "010"%char.

Definition code (c : ascii) : nat := nat_of_ascii c.

Definition between (lo hi c : ascii) : bool :=
  (code lo <=? code c) && (code c <=? code hi).

Definition is_digit (c : ascii) : bool := between "0" "9" c.
Definition is_upper (c : ascii) : bool := between "A" "Z" c.
Definition is_lower (c : ascii) : bool := between "a" "z" c.

(** The alphanumeric characters above ASCII: the ordinal indicators, the
    superscript digits, the micro sign, the fractions and the accented
    letters (all of 192-255 but the multiplication and division signs). *)
Definition is_latin1_alnum (c : ascii) : bool :=
  let n := code c in
  bool_decide (n ∈ [170; 178; 179; 181; 185; 186; 188; 189; 190]) ||
  ((192 <=? n) && negb (n =? 215) && negb (n =? 247)).

(** [\w] for a [str] pattern: the alphanumeric characters and the
    underscore. *)
Definition is_word (c : ascii) : bool :=
  is_digit c || is_upper c || is_lower c || bool_decide (c = "_"%char) ||
  is_latin1_alnum c.

(** Case folding of the ASCII letters, the only letters the patterns of
    the script contain. *)
Definition lower (c : ascii) : ascii :=
  if is_upper c then ascii_of_nat (code c + 32) else c.

Definition upper (c : ascii) : ascii :=
  if is_lower c then ascii_of_nat (code c - 32) else c.

(** [str(n)] for a non-negative integer. *)
Definition decimal (n : nat) : text := str (NilZero.string_of_uint (Nat.to_uint n)).

(* ================================================================== *)
(** ** The regular expressions of the script *)

Module Re.

(** One-character items. *)
Inductive atom :=
| Dot                       (* [.]: any character except a line feed *)
| Lit (c : ascii)           (* a literal character *)
| Range (lo hi : ascii).    (* [[lo-hi]] *)

(** The operators that occur in the two patterns. The star is the greedy
    star of a one-character item, which is all the script uses. *)
Inductive regex :=
| Eps
| Atom (a : atom)
| Star (a : atom)
| WordB                     (* [\b] *)
| Group (i : nat) (r : regex)
| Seq (r1 r2 : regex).

Record pattern := Pattern { body : regex; ignorecase : bool }.

Definition captures := list (nat * text).

(** A match: the text it covers, its groups, and what follows it (the
    character just before the end position and the unread text). *)
Record matched := Matched {
  whole : text;
  groups : captures;
  last_seen : option ascii;
  unread : text
}.

Definition atom_ok (ic : bool) (a : atom) (c : ascii) : bool :=
  match a with
  | Dot => negb (bool_decide (c = LF))
  | Lit x => if ic then bool_decide (lower c = lower x) else bool_decide (c = x)
  | Range lo hi =>
      between lo hi c || (ic && (between lo hi (lower c) || between lo hi (upper c)))
  end.

Definition word_opt (o : option ascii) : bool :=
  match o with Some c => is_word c | None => false end.

(** [\b] holds where exactly one of the two neighbours is a word character;
    the start and the end of the text count as non-word. *)
Definition at_boundary (prev : option ascii) (s : text) : bool :=
  xorb (word_opt prev) (word_opt (head s)).

Definition cont := option ascii -> text -> captures -> option (captures * option ascii * text).

(** Greedy star: take the item as often as possible, and give characters
    back one at a time while the rest of the pattern fails. *)
Fixpoint star_loop (ok : ascii -> bool) (prev : option ascii) (s : text)
    (g : captures) (k : cont) : option (captures * option ascii * text) :=
  match s with
  | c :: s' =>
      if ok c then
        match star_loop ok (Some c) s' g k with
        | Some m => Some m
        | None => k prev s g
        end
      else k prev s g
  | [] => k prev s g
  end.

(** Backtracking matcher in continuation-passing style: [exec ic r prev s g k]
    matches [r] at the head of [s] ([prev] is the character before it) and
    hands the rest to [k]. *)
Fixpoint exec (ic : bool) (r : regex) (prev : option ascii) (s : text)
    (g : captures) (k : cont) : option (captures * option ascii * text) :=
  match r with
  | Eps => k prev s g
  | Atom a =>
      match s with
      | c :: s' => if atom_ok ic a c then k (Some c) s' g else None
      | [] => None
      end
  | Star a => star_loop (atom_ok ic a) prev s g k
  | WordB => if at_boundary prev s then k prev s g else None
  | Group i r1 =>
      exec ic r1 prev s g
        (fun prev' s' g' => k prev' s' ((i, take (length s - length s') s) :: g'))
  | Seq r1 r2 =>
      exec ic r1 prev s g (fun prev' s' g' => exec ic r2 prev' s' g' k)
  end.

Definition accept : cont := fun prev s g => Some (g, prev, s).

(** [Pattern.match] at one position. *)
Definition match_here (p : pattern) (prev : option ascii) (s : text) : option matched :=
  match exec (ignorecase p) (body p) prev s [] accept with
  | Some (g, prev', s') =>
      Some (Matched (take (length s - length s') s) g prev' s')
  | None => None
  end.

(** [Pattern.search]: the match at the leftmost position that has one. *)
Fixpoint search_from (p : pattern) (prev : option ascii) (s : text) : option matched :=
  match match_here p prev s with
  | Some m => Some m
  | None =>
      match s with
      | c :: s' => search_from p (Some c) s'
      | [] => None
      end
  end.

Definition search (p : pattern) (s : text) : option matched := search_from p None s.

(** [Match.group(i)] for a group that took part in the match. *)
Fixpoint capture (g : captures) (i : nat) : option text :=
  match g with
  | [] => None
  | (j, t) :: g' => if Nat.eqb j i then Some t else capture g' i
  end.

Definition group (m : matched) (i : nat) : option text := capture (groups m) i.

(** [Pattern.findall] for a pattern without groups: the texts of the
    successive matches, each search resuming where the previous match
    ended (one character further after an empty match). The scan needs at
    most one round per position, which [findall] supplies. *)
Fixpoint findall_from (fuel : nat) (p : pattern) (prev : option ascii) (s : text) : list text :=
  match fuel with
  | 0 => []
  | S fuel' =>
      match search_from p prev s with
      | None => []
      | Some m =>
          match whole m, unread m with
          | [], c :: s' => whole m :: findall_from fuel' p (Some c) s'
          | [], [] => [whole m]
          | _ :: _, s' => whole m :: findall_from fuel' p (last_seen m) s'
          end
      end
  end.

Definition findall (p : pattern) (s : text) : list text :=
  findall_from (S (length s)) p None s.

(** Pattern builders. *)
Definition cat (rs : list regex) : regex := foldr Seq Eps rs.
Definition lits (s : string) : regex := cat (Atom ∘ Lit <$> str s).
Definition times (n : nat) (r : regex) : regex := cat (replicate n r).

End Re.

Import Re.

(** The pattern compiled on line 72: a greedy group 1 of any characters,
    an underscore, group 2 with 4, 2 and 2 digits separated by dashes, one
    more character (the dot of the pattern is not escaped) and [log]. *)
Definition date_regex : regex :=
  cat [times 4 (Atom (Range "0" "9")); lits "-";
       times 2 (Atom (Range "0" "9")); lits "-";
       times 2 (Atom (Range "0" "9"))].

Definition log_format_regex : pattern :=
  Pattern (cat [Group 1 (Star Dot); lits "_"; Group 2 date_regex; Atom Dot; lits "log"]) false.

(** The pattern compiled on line 73 with [re.IGNORECASE]: the word
    [error] between two word boundaries. *)
Definition log_error_regex : pattern :=
  Pattern (cat [WordB; lits "error"; WordB]) true.

(** Lines 25-26 of [organize_logs]: [log_regex.search(name).group(1)];
    [None] stands for the search that found nothing. *)
Definition classify (log_regex : pattern) (name : text) : option text :=
  m ← search log_regex name; group m 1.

(** Line 55 of [find_error_in_logs]: [len(error_regex.findall(content))]. *)
Definition count_matches (error_regex : pattern) (content : text) : nat :=
  length (findall error_regex content).

(* ================================================================== *)
(** ** The file system the script works on *)

(** A path is the list of the components of a resolved absolute location;
    [[]] is the root directory. *)
Definition path := list text.

Inductive node :=
| File (content : text)
| Dir.

(** [Path.name] and [Path.parent]. *)
Definition name (p : path) : text := default [] (last p).
Definition parent (p : path) : path := take (length p - 1) p.

Inductive exn :=
| AttributeError
| EOFError
| FileNotFoundError (p : path)
| PermissionError (p : path)
| IsADirectoryError (p : path)
| NotADirectoryError (p : path)
| FileExistsError (p : path)
| ShutilError (p : path)
| SystemExit (status : nat).

(** What the script prints, on either stream. *)
Inductive message :=
| Must_specify
| Cannot_access (script : text) (p : path)
| Not_a_directory (script : text) (p : path)
| No_destination (script : text) (p : path)
| Cannot_create (script : text) (p : path) (e : exn)
| No_log_files (script : text) (p : path)
| Cannot_access_exn (script : text) (p : path) (e : exn)
| Warning_exists (dest : path)
| Error_exn (e : exn)
| Prompt_overwrite (file : text)
| Prompt_create (p : path)
| Aborted
| Item (p : path)
| Items (ps : list path).

(** The directory entries are kept in listing order (the order in which a
    directory scan yields them), which is the order [glob] and [rglob]
    follow. [locked] lists the places where the process has no permission
    at all (mode 000): nothing below a locked directory can be reached or
    listed, a locked file can be neither read nor written. Permissions in
    between are not told apart. [answers] are the replies typed at the
    yes/no prompts ([true] for yes). *)
Record world := World {
  tree : list (path * node);
  locked : list path;
  cwd : path;
  answers : list bool;
  stdout : list message;
  stderr : list message
}.

Definition set_tree (t : list (path * node)) (w : world) : world :=
  World t (locked w) (cwd w) (answers w) (stdout w) (stderr w).

Fixpoint assoc (p : path) (t : list (path * node)) : option node :=
  match t with
  | [] => None
  | (q, n) :: t' => if decide (q = p) then Some n else assoc p t'
  end.

Definition node_at (t : list (path * node)) (p : path) : option node :=
  match p with
  | [] => Some Dir
  | _ => assoc p t
  end.

Fixpoint put (p : path) (n : node) (t : list (path * node)) : list (path * node) :=
  match t with
  | [] => [(p, n)]
  | (q, m) :: t' => if decide (q = p) then (q, n) :: t' else (q, m) :: put p n t'
  end.

Fixpoint remove (p : path) (t : list (path * node)) : list (path * node) :=
  match t with
  | [] => []
  | (q, m) :: t' => if decide (q = p) then remove p t' else (q, m) :: remove p t'
  end.

Definition is_directory (o : option node) : bool :=
  match o with Some Dir => true | _ => false end.

Definition is_locked (w : world) (p : path) : bool := bool_decide (p ∈ locked w).

(** Some directory on the way to [p] is locked. *)
Definition blocked (w : world) (p : path) : bool :=
  existsb (fun k => is_locked w (take k p)) (seq 0 (length p)).

Definition below (root p : path) : bool :=
  bool_decide (length root < length p) && bool_decide (take (length root) p = root).

Definition ends_with (suffix s : text) : bool :=
  bool_decide (length suffix <= length s) &&
  bool_decide (drop (length s - length suffix) s = suffix).

(* ------------------------------------------------------------------ *)
(** *** Computations: state and exceptions *)

Inductive result (A : Type) :=
| Ok (a : A)
| Raise (e : exn).
Arguments Ok {A} a.
Arguments Raise {A} e.

Definition M (A : Type) : Type := world -> result A * world.

Definition ret {A} (a : A) : M A := fun w => (Ok a, w).
Definition raise {A} (e : exn) : M A := fun w => (Raise e, w).
Definition bind {A B} (m : M A) (k : A -> M B) : M B :=
  fun w => match m w with
           | (Ok a, w') => k a w'
           | (Raise e, w') => (Raise e, w')
           end.

Notation "x <- m ;; k" := (bind m (fun x => k))
  (at level 100, m at next level, right associativity).
Notation "m ;; k" := (bind m (fun _ => k))
  (at level 100, right associativity).

(** [try: m except ...: h]; [h] answers [None] for the exceptions the
    [except] clauses do not name. *)
Definition try {A} (m : M A) (h : exn -> option (M A)) : M A :=
  fun w => match m w with
           | (Ok a, w') => (Ok a, w')
           | (Raise e, w') =>
               match h e with
               | Some k => k w'
               | None => (Raise e, w')
               end
           end.

(** [for x in xs: body]. *)
Fixpoint for_each {A} (xs : list A) (body : A -> M unit) : M unit :=
  match xs with
  | [] => ret tt
  | x :: xs' => body x ;; for_each xs' body
  end.

Definition get {A} (f : world -> A) : M A := fun w => (Ok (f w), w).

Definition print (m : message) : M unit :=
  fun w => (Ok tt, World (tree w) (locked w) (cwd w) (answers w) (stdout w ++ [m]) (stderr w)).

Definition eprint (m : message) : M unit :=
  fun w => (Ok tt, World (tree w) (locked w) (cwd w) (answers w) (stdout w) (stderr w ++ [m])).

Definition sys_exit {A} (status : nat) : M A := raise (SystemExit status).

(** [pyinputplus.inputYesNo]: shows the prompt and reads the next reply. *)
Definition inputYesNo (prompt : message) : M bool :=
  print prompt ;;
  fun w => match answers w with
           | a :: rest =>
               (Ok a, World (tree w) (locked w) (cwd w) rest (stdout w) (stderr w))
           | [] => (Raise EOFError, w)
           end.

(* ------------------------------------------------------------------ *)
(** *** File-system calls *)

(** [Path.exists()]. *)
Definition path_exists (p : path) : M bool :=
  fun w => if blocked w p then (Raise (PermissionError p), w)
           else (Ok (bool_decide (is_Some (node_at (tree w) p))), w).

(** [Path.is_dir()]. *)
Definition is_dir (p : path) : M bool :=
  fun w => if blocked w p then (Raise (PermissionError p), w)
           else (Ok (is_directory (node_at (tree w) p)), w).

(** Directory creation along [todo] below the directory [here]. *)
Fixpoint make_dirs (t : list (path * node)) (here : path) (todo : list text)
    : result (list (path * node)) :=
  match todo with
  | [] => Ok t
  | c :: rest =>
      let q := here ++ [c] in
      match node_at t q with
      | Some Dir => make_dirs t q rest
      | Some (File _) =>
          Raise (match rest with [] => FileExistsError q | _ => NotADirectoryError q end)
      | None => make_dirs (t ++ [(q, Dir)]) q rest
      end
  end.

(** [Path.mkdir(parents=True, exist_ok=exist_ok)]. *)
Definition mkdir (exist_ok : bool) (p : path) : M unit :=
  fun w =>
    if blocked w p then (Raise (PermissionError p), w)
    else if negb exist_ok && bool_decide (is_Some (node_at (tree w) p))
    then (Raise (FileExistsError p), w)
    else match make_dirs (tree w) [] p with
         | Ok t => (Ok tt, set_tree t w)
         | Raise e => (Raise e, w)
         end.

(** Entries of a moved directory follow it. *)
Definition relocate (src dst : path) (t : list (path * node)) : list (path * node) :=
  (fun e : path * node =>
     if bool_decide (take (length src) e.1 = src)
     then (dst ++ drop (length src) e.1, e.2) else e) <$> t.

(** The way to [p] from the root down, through the ancestors of [p] whose
    lengths are [steps]: the first one that is missing, is not a directory
    or is locked decides the error of a call that has to get to [p]. *)
Fixpoint way (w : world) (p : path) (steps : list nat) : option exn :=
  match steps with
  | [] => None
  | k :: rest =>
      match node_at (tree w) (take k p) with
      | None => Some (FileNotFoundError p)
      | Some (File _) => Some (NotADirectoryError p)
      | Some Dir =>
          if is_locked w (take k p) then Some (PermissionError p) else way w p rest
      end
  end.

(** [shutil.move(src, dst)]: into [dst] when that is a directory, onto
    [dst] otherwise (a rename replaces an existing file). The rename asks
    for a way to the source and to the destination, and for no permission
    on the entry itself: a locked file is moved like any other. A source
    that is not there fails as the way to it tells. A directory that
    cannot be renamed is copied, which creates the missing directories
    above the destination. [locked] names places and is left as it is. *)
Definition move (src dst : path) : M unit :=
  fun w =>
    let t := tree w in
    let real_dst :=
      match node_at t dst with Some Dir => dst ++ [name src] | _ => dst end in
    if is_directory (node_at t dst) && bool_decide (src = dst) then (Ok tt, w)
    else if is_directory (node_at t dst) && bool_decide (is_Some (node_at t real_dst))
    then (Raise (ShutilError real_dst), w)
    else match node_at t src with
    | None =>
        (Raise (default (FileNotFoundError src) (way w src (seq 0 (length src)))), w)
    | Some n =>
        if blocked w src then (Raise (PermissionError src), w)
        else match n, way w real_dst (seq 0 (length real_dst)) with
        | File c, None => (Ok tt, set_tree (put real_dst (File c) (remove src t)) w)
        | File c, Some e => (Raise e, w)
        | Dir, on_the_way =>
            if bool_decide (take (length src) real_dst = src)
            then (Raise (ShutilError real_dst), w)
            else match on_the_way with
            | None =>
                if bool_decide (is_Some (node_at t real_dst))
                then (Raise (FileExistsError real_dst), w)
                else (Ok tt, set_tree (relocate src real_dst t) w)
            | Some (FileNotFoundError _) =>
                match make_dirs t [] (parent real_dst) with
                | Ok t' => (Ok tt, set_tree (relocate src real_dst t') w)
                | Raise e => (Raise e, w)
                end
            | Some e => (Raise e, w)
            end
        end
    end.

(** [Path.read_text()]. *)
Definition read_text (p : path) : M text :=
  fun w =>
    if blocked w p then (Raise (PermissionError p), w)
    else match node_at (tree w) p with
    | None => (Raise (FileNotFoundError p), w)
    | Some Dir => (Raise (IsADirectoryError p), w)
    | Some (File c) =>
        if is_locked w p then (Raise (PermissionError p), w) else (Ok c, w)
    end.

(** [open(p, 'w')]: creates the file or empties it. A missing directory
    on the way gives [FileNotFoundError], a regular file on the way gives
    [NotADirectoryError]. *)
Definition open_w (p : path) : M unit :=
  fun w =>
    match way w p (seq 0 (length p)) with
    | Some e => (Raise e, w)
    | None =>
        match node_at (tree w) p with
        | Some Dir => (Raise (IsADirectoryError p), w)
        | Some (File _) =>
            if is_locked w p then (Raise (PermissionError p), w)
            else (Ok tt, set_tree (put p (File []) (tree w)) w)
        | None => (Ok tt, set_tree (put p (File []) (tree w)) w)
        end
    end.

(** [file.write(s)] on the file opened at [p]; the text reaches the file
    at once (buffering is not modelled). *)
Definition fwrite (p : path) (s : text) : M unit :=
  fun w =>
    match node_at (tree w) p with
    | Some (File c) => (Ok tt, set_tree (put p (File (c ++ s)) (tree w)) w)
    | _ => (Raise (FileNotFoundError p), w)
    end.

(** A generator: the items it has not yielded yet. Iterating over it, or
    calling [list] on it, takes them all and leaves it empty. *)
Record generator := Gen { pending : list path }.

Definition drain (g : generator) : list path * generator := (pending g, Gen []).

(** [dir.glob('*.log')]: the entries of [dir] itself whose name ends in
    [.log], in listing order. The listing is taken when the generator is
    first used, which in the script is at once. A directory that cannot be
    reached raises; one that is not a directory, or cannot be listed,
    yields nothing. *)
Definition glob_log (dir : path) : M generator :=
  fun w =>
    if blocked w dir then (Raise (PermissionError dir), w)
    else
      (Ok (Gen (if negb (is_directory (node_at (tree w) dir)) || is_locked w dir then []
                else omap (fun e : path * node =>
                             if bool_decide (parent e.1 = dir) &&
                                bool_decide (e.1 <> []) &&
                                ends_with (str ".log") (name e.1)
                             then Some e.1 else None) (tree w))), w).

(** Every step from [root] down to the parent of [p] is a directory that
    can be listed. *)
Definition reachable (w : world) (root p : path) : bool :=
  forallb (fun k => is_directory (node_at (tree w) (take k p)) &&
                    negb (is_locked w (take k p)))
          (seq (length root) (length p - length root)).

(** [root.rglob('*.log')]: the entries at any depth below [root] whose
    name ends in [.log]. *)
Definition rglob_log (root : path) : M generator :=
  fun w =>
    if blocked w root then (Raise (PermissionError root), w)
    else
      (Ok (Gen (omap (fun e : path * node =>
                        if below root e.1 && reachable w root e.1 &&
                           ends_with (str ".log") (name e.1)
                        then Some e.1 else None) (tree w))), w).

(* ================================================================== *)
(** ** The script *)

Definition DEST_DIR : path := [str "home"; str "arengifo"; str "logs"; str "dest"].

Definition REPORT_FILE (w : world) : path := cwd w ++ [str "reporte.txt"].

(** [DEST_DIR / Path(log_service_name)] as the location it denotes. The
    service comes out of a base name, so it holds no slash: it is one
    component, or none when it is empty or a single dot, and two dots
    lead to the directory above. *)
Definition service_dir (log_service_name : text) : path :=
  if bool_decide (log_service_name = []) || bool_decide (log_service_name = str ".")
  then DEST_DIR
  else if bool_decide (log_service_name = str "..") then parent DEST_DIR
  else DEST_DIR ++ [log_service_name].

(** The directories [log_service_dir.mkdir(exist_ok=True, parents=True)]
    goes through: creating [DEST_DIR/..] passes by [DEST_DIR]. *)
Definition service_dir_made (log_service_name : text) : path :=
  if bool_decide (log_service_name = str "..") then DEST_DIR
  else service_dir log_service_name.

Definition file_errors (e : exn) : option (M unit) :=
  match e with
  | FileNotFoundError _ | PermissionError _ => Some (eprint (Error_exn e))
  | _ => None
  end.

(** Body of the loop of [organize_logs] (lines 25-39). *)
Definition route (log_regex : pattern) (log : path) : M unit :=
  match classify log_regex (name log) with
  | None => raise AttributeError
  | Some log_service_name =>
      let log_dest := service_dir log_service_name ++ [name log] in
      mkdir true (service_dir_made log_service_name) ;;
      try (found <- path_exists log_dest ;;
           if found then eprint (Warning_exists log_dest)
           else move log log_dest)
          file_errors
  end.

Definition organize_logs (logs : generator) (log_regex : pattern) : M unit :=
  for_each (fst (drain logs)) (route log_regex).

Definition report_line (file_name : text) (n : nat) : text :=
  file_name ++ str ": " ++ decimal n ++ str " errores" ++ [LF].

(** Body of the loop of [find_error_in_logs] (lines 55-56). *)
Definition audit (error_regex : pattern) (report_file logfile : path) : M unit :=
  content <- read_text logfile ;;
  let n := count_matches error_regex content in
  fwrite report_file (report_line (name logfile) n).

Definition audit_errors (e : exn) : option (M unit) :=
  match e with
  | IsADirectoryError _ | FileNotFoundError _ | PermissionError _ =>
      Some (eprint (Error_exn e))
  | _ => None
  end.

Definition find_error_in_logs (new_logdir : path) (error_regex : pattern)
    (report_file : path) : M unit :=
  try (open_w report_file ;;
       logfiles <- rglob_log new_logdir ;;
       for_each (fst (drain logfiles)) (audit error_regex report_file))
      audit_errors.

(** Lines 106-120: listing the source directory, routing, auditing. The
    generator [logs_found] is threaded through every use of it. *)
Definition run_pipeline (script : text) (log_dir_path : path) : M unit :=
  try (logs_found <- glob_log log_dir_path ;;
       let '(found, logs_found) := drain logs_found in      (* list(logs_found) *)
       if length found =? 0 then
         eprint (No_log_files script log_dir_path) ;;
         sys_exit 1
       else
         let '(items, logs_found) := drain logs_found in    (* for item in logs_found *)
         for_each items (fun item => print (Item item)) ;;
         let '(items, logs_found) := drain logs_found in    (* list(logs_found) *)
         print (Items items) ;;
         organize_logs logs_found log_format_regex ;;
         report_file <- get REPORT_FILE ;;
         find_error_in_logs DEST_DIR log_error_regex report_file)
      (fun e => match e with
                | PermissionError _ => Some (eprint (Cannot_access_exn script log_dir_path e))
                | _ => None
                end).

(** The [__main__] block; [script] is the name of the script file and
    [args] are the command-line arguments after it. *)
Definition main (script : text) (args : list path) : M unit :=
  match args with
  | [] => eprint Must_specify ;; sys_exit 1
  | log_dir_path :: _ =>
      found <- path_exists log_dir_path ;;
      if negb found then eprint (Cannot_access script log_dir_path) ;; sys_exit 1
      else
      dir <- is_dir log_dir_path ;;
      if negb dir then eprint (Not_a_directory script log_dir_path) ;; sys_exit 1
      else
      report_file <- get REPORT_FILE ;;
      report_found <- path_exists report_file ;;
      (if report_found then
         answer <- inputYesNo (Prompt_overwrite (name report_file)) ;;
         if negb answer then print Aborted ;; sys_exit 1 else ret tt
       else ret tt) ;;
      dest_found <- path_exists DEST_DIR ;;
      (if negb dest_found then
         eprint (No_destination script DEST_DIR) ;;
         answer <- inputYesNo (Prompt_create DEST_DIR) ;;
         try (if answer then mkdir false DEST_DIR
              else print Aborted ;; sys_exit 1)
             (fun e => match e with
                       | PermissionError _ =>
                           Some (eprint (Cannot_create script DEST_DIR e) ;; sys_exit 1)
                       | _ => None
                       end)
       else ret tt) ;;
      run_pipeline script log_dir_path
  end.

(* ------------------------------------------------------------------ *)
(** *** A sample run *)

Module Sample.

Definition src : path := [str "var"; str "log"].
Definition auth1 : text := str "auth_2024-01-01.log".
Definition auth2 : text := str "auth_2024-01-02.log".

Definition start : world :=
  World [ ([str "var"], Dir); (src, Dir);
          ([str "home"], Dir); ([str "home"; str "arengifo"], Dir);
          ([str "home"; str "arengifo"; str "logs"], Dir); (DEST_DIR, Dir);
          (src ++ [auth1], File (str "boot ok. Error: disk full"));
          (src ++ [auth2], File (str "an error here")) ]
        [] [str "home"; str "arengifo"] [] [] [].

End Sample.

(* ------------------------------------------------------------------ *)
(** *** More sample file systems *)

Module Cases.

Import Sample.

Definition script : text := str "order_log_files.py".
Definition auth_dir : path := DEST_DIR ++ [str "auth"].
Definition report : path := REPORT_FILE start.

(** A name the pattern does not match, listed before one it matches. *)
Definition notes : text := str "notes.log".

Definition with_notes : world :=
  set_tree (tree start ++ [(src ++ [notes], File (str "to do"))]) start.

(** The collision scenario: the destination of [auth1] is taken. *)
Definition collision : world :=
  set_tree (tree start ++ [(auth_dir, Dir); (auth_dir ++ [auth1], File (str "kept"))]) start.

(** A destination tree whose first listed log file cannot be read. *)
Definition a_log : path := auth_dir ++ [str "a.log"].
Definition b_log : path := auth_dir ++ [str "b.log"].

Definition classified : world :=
  World [ ([str "home"], Dir); ([str "home"; str "arengifo"], Dir);
          ([str "home"; str "arengifo"; str "logs"], Dir); (DEST_DIR, Dir);
          (auth_dir, Dir);
          (a_log, File (str "error: disk full; ERROR: again"));
          (b_log, File (str "all fine")) ]
        [] [str "home"; str "arengifo"] [] [] [].

Definition unreadable_first : world :=
  World [ ([str "home"], Dir); ([str "home"; str "arengifo"], Dir);
          ([str "home"; str "arengifo"; str "logs"], Dir); (DEST_DIR, Dir);
          (auth_dir, Dir);
          (a_log, File (str "secret"));
          (b_log, File (str "one error")) ]
        [a_log] [str "home"; str "arengifo"] [] [] [].

(** A source directory without log files. *)
Definition no_source_logs : world :=
  World [ ([str "var"], Dir); (src, Dir); (src ++ [str "readme.txt"], File (str "hi"));
          ([str "home"], Dir); ([str "home"; str "arengifo"], Dir);
          ([str "home"; str "arengifo"; str "logs"], Dir); (DEST_DIR, Dir) ]
        [] [str "home"; str "arengifo"] [] [] [].

(** The report of an earlier run is there, and the reply typed is no. *)
Definition asked : world :=
  World (tree start ++ [(report, File (str "old report"))])
        [] [str "home"; str "arengifo"] [false] [] [].

(** No destination directory yet, and the reply typed is no. *)
Definition no_dest : world :=
  World [ ([str "var"], Dir); (src, Dir);
          ([str "home"], Dir); ([str "home"; str "arengifo"], Dir);
          (src ++ [auth1], File (str "boot ok. Error: disk full")) ]
        [] [str "home"; str "arengifo"] [false] [] [].

(** The report of an earlier run is there, the destination directory is
    not, and the replies typed are yes, then no. *)
Definition asked_twice : world :=
  World (tree no_dest ++ [(report, File (str "old report"))])
        [] [str "home"; str "arengifo"] [true; false] [] [].


(** A report path that leads through a regular file. *)
Definition report_under_file : path := a_log ++ [str "reporte.txt"].

(** The destination tree with the report of an earlier run beside it. *)
Definition audited_before : world :=
  set_tree (tree classified ++ [(report, File (str "old report"))]) classified.

End Cases.

(* ================================================================== *)
(** ** Vocabulary of the statements *)

(** A run of one-character items read off the head of a text. *)
Fixpoint eat (ic : bool) (l : list atom) (s : text) : option text :=
  match l, s with
  | [], _ => Some s
  | a :: l', c :: s' => if atom_ok ic a c then eat ic l' s' else None
  | _ :: _, [] => None
  end.

(** The character before the position reached after reading [taken]. *)
Definition seen (prev : option ascii) (taken : text) : option ascii :=
  match last taken with Some c => Some c | None => prev end.

(** The items of a pattern made of one-character items only. *)
Fixpoint atoms_of (r : regex) : option (list atom) :=
  match r with
  | Eps => Some []
  | Atom a => Some [a]
  | Seq r1 r2 =>
      match atoms_of r1, atoms_of r2 with
      | Some l1, Some l2 => Some (l1 ++ l2)
      | _, _ => None
      end
  | _ => None
  end.

Definition digit_atom : atom := Range "0" "9".

Definition date_atoms : list atom :=
  replicate 4 digit_atom ++ [Lit "-"] ++ replicate 2 digit_atom ++ [Lit "-"] ++
  replicate 2 digit_atom.

(** What [log_format_regex] asks for after the service group. *)
Definition tail_atoms : list atom :=
  [Lit "_"] ++ date_atoms ++ [Dot; Lit "l"; Lit "o"; Lit "g"].

Definition tail_regex : regex :=
  cat [lits "_"; Group 2 date_regex; Atom Dot; lits "log"].

(** The rest of the pattern matches at offset [j] of [s]. *)
Definition anchor_at (s : text) (j : nat) : Prop :=
  is_Some (eat false tail_atoms (drop j s)).

(** A date as the pattern reads it: 4, 2 and 2 digits with dashes. *)
Definition is_date (d : text) : bool :=
  match d with
  | [y1; y2; y3; y4; h1; m1; m2; h2; d1; d2] =>
      is_digit y1 && is_digit y2 && is_digit y3 && is_digit y4 &&
      bool_decide (h1 = "-"%char) &&
      is_digit m1 && is_digit m2 &&
      bool_decide (h2 = "-"%char) &&
      is_digit d1 && is_digit d2
  | _ => false
  end.

Definition error_atoms : list atom := Lit <$> str "error".

(** A whole-word occurrence of [error], whatever the case of its letters,
    at the head of [s]: no word character just before it ([prev]) and none
    just after it. *)
Definition whole_word_at (prev : option ascii) (s : text) : bool :=
  negb (word_opt prev) &&
  bool_decide (lower <$> take 5 s = str "error") &&
  negb (word_opt (head (drop 5 s))).

(** The number of whole-word occurrences in [s], position by position. *)
Fixpoint whole_word_count (prev : option ascii) (s : text) : nat :=
  match s with
  | [] => 0
  | c :: s' => (if whole_word_at prev s then 1 else 0) + whole_word_count (Some c) s'
  end.

(** Every directory on the way to [p], and [p] itself, is there. *)
Definition dirs_made t (p : path) : Prop :=
  forall k, 1 <= k <= length p -> node_at t (take k p) = Some Dir.

Section RoutingTerms.

Variable re : pattern.

(** [log_dest] of line 27. *)
Definition dest_of (service : text) (log : path) : path :=
  service_dir service ++ [name log].

Definition is_file (t : list (path * node)) (p : path) : Prop :=
  exists c, node_at t p = Some (File c).

(** Lines 30-39 of [organize_logs]: the guarded move. *)
Definition place (log log_dest : path) : M unit :=
  try (found <- path_exists log_dest ;;
       if found then eprint (Warning_exists log_dest)
       else move log log_dest)
      file_errors.

(** The file has a copy at its destination, and that can be seen. *)
Definition placed (w : world) (f : path) : Prop :=
  exists service, classify re (name f) = Some service /\
    is_Some (node_at (tree w) (dest_of service f)) /\
    blocked w (dest_of service f) = false.

(** Routing the file again changes nothing: its service directory is
    there, and either its destination is taken or cannot be looked at, or
    the file is there and cannot be reached. *)
Definition settled (w : world) (f : path) : Prop :=
  exists service, classify re (name f) = Some service /\
    blocked w (service_dir_made service) = false /\
    dirs_made (tree w) (service_dir_made service) /\
    (blocked w (dest_of service f) = true \/
     is_Some (node_at (tree w) (dest_of service f)) \/
     (blocked w f = true /\ is_Some (node_at (tree w) f))).

Definition routable (w : world) (f : path) : Prop :=
  is_file (tree w) f \/ placed w f.

(** What the guarded move can do. *)
Inductive placing (f dest : path) (w : world) : result unit -> world -> Prop :=
| placing_skip :
    blocked w dest = false -> is_Some (node_at (tree w) dest) ->
    placing f dest w (Ok tt) (snd (eprint (Warning_exists dest) w))
| placing_failed e :
    blocked w dest = true \/ (blocked w f = true /\ is_Some (node_at (tree w) f)) ->
    (blocked w dest = false -> node_at (tree w) dest = None) ->
    placing f dest w (Ok tt) (snd (eprint (Error_exn e) w))
| placing_moved c :
    blocked w dest = false -> node_at (tree w) dest = None ->
    node_at (tree w) f = Some (File c) ->
    placing f dest w (Ok tt) (set_tree (put dest (File c) (remove f (tree w))) w)
| placing_directory r w' :
    node_at (tree w) f = Some Dir -> node_at (tree w) dest = None ->
    placing f dest w r w'
| placing_gone r w' :
    node_at (tree w) f = None -> node_at (tree w) dest = None ->
    placing f dest w r w'
| placing_no_way e r w' :
    blocked w dest = false ->
    way w dest (seq 0 (length dest)) = Some e ->
    placing f dest w r w'.



(** The content [c] is held for [p]: at [p] itself or at its destination. *)
Definition held (w : world) (p : path) (c : text) : Prop :=
  node_at (tree w) p = Some (File c) \/
  exists service, classify re (name p) = Some service /\
    node_at (tree w) (dest_of service p) = Some (File c).

End RoutingTerms.

(** The world after more lines went to the error stream. *)
Definition add_err (msgs : list message) (w : world) : world :=
  World (tree w) (locked w) (cwd w) (answers w) (stdout w) (stderr w ++ msgs).

Section AuditTerms.

Variable error_regex : pattern.

(** The text of a regular file, empty for anything else. *)
Definition content (t : list (path * node)) (p : path) : text :=
  match node_at t p with Some (File c) => c | _ => [] end.

(** [p] is a regular file the process may read. *)
Definition readable (w : world) (p : path) : Prop :=
  blocked w p = false /\ is_locked w p = false /\ is_file (tree w) p.

(** The files [root.rglob('*.log')] yields. *)
Definition logs_below (root : path) (w : world) : list path :=
  match rglob_log root w with
  | (Ok g, _) => pending g
  | (Raise _, _) => []
  end.

Definition line_of (t : list (path * node)) (p : path) : text :=
  report_line (name p) (count_matches error_regex (content t p)).

End AuditTerms.

(** No entry of [dir] itself has a name ending in [.log]. *)
Definition no_logs (t : list (path * node)) (dir : path) : Prop :=
  forall p n, (p, n) ∈ t -> parent p = dir -> ends_with (str ".log") (name p) = false.

(** Regular files are where they were, with what they held. *)
Definition same_files (t t' : list (path * node)) : Prop :=
  forall p c, node_at t' p = Some (File c) <-> node_at t p = Some (File c).

(** Lines 106-120 with the routing call left out: the listing, the test
    for an empty listing, the printing of the second (empty) listing, and
    the audit. *)
Definition audit_only (script : text) (log_dir_path : path) : M unit :=
  try (logs_found <- glob_log log_dir_path ;;
       if length (pending logs_found) =? 0 then
         eprint (No_log_files script log_dir_path) ;;
         sys_exit 1
       else
         print (Items []) ;;
         report_file <- get REPORT_FILE ;;
         find_error_in_logs DEST_DIR log_error_regex report_file)
      (fun e => match e with
                | PermissionError _ => Some (eprint (Cannot_access_exn script log_dir_path e))
                | _ => None
                end).

(** The whole pattern, in the words of C5: a non-empty service, an
    underscore, a date and the extension. *)
Definition whole_pattern (name : text) : Prop :=
  exists service date,
    service <> [] /\ is_date date = true /\
    name = service ++ str "_" ++ date ++ str ".log".

(* ================================================================== *)
(** ** Facts about the matcher *)

Section Matcher.

Lemma seen_cons prev c t : seen prev (c :: t) = seen (Some c) t.
Proof.
  unfold seen. destruct t as [|d t]; [done|].
  rewrite !last_cons. by destruct (last t).
Qed.

Lemma seen_app prev t1 t2 : seen prev (t1 ++ t2) = seen (seen prev t1) t2.
Proof.
  revert prev. induction t1 as [|c t1 IH]; intros prev; [done|].
  simpl. by rewrite !seen_cons, IH.
Qed.

Lemma eat_split ic l s s' :
  eat ic l s = Some s' -> s = take (length l) s ++ s' /\ length (take (length l) s) = length l.
Proof.
  revert s. induction l as [|a l IH]; intros [|c s]; simpl; try done.
  - intros [= <-]. done.
  - intros [= <-]. done.
  - destruct (atom_ok ic a c); [|done]. intros H. apply IH in H as [H1 H2].
    split; [by f_equal|by f_equal].
Qed.

Lemma eat_length ic l s s' : eat ic l s = Some s' -> length s = length l + length s'.
Proof.
  intros H. apply eat_split in H as [H1 H2].
  rewrite H1 at 1. rewrite length_app. lia.
Qed.

Lemma eat_drop ic l s s' : eat ic l s = Some s' -> s' = drop (length l) s.
Proof.
  intros H. apply eat_split in H as [H1 H2].
  rewrite H1, drop_app_length'; done.
Qed.

Lemma eat_app ic l1 l2 s :
  eat ic (l1 ++ l2) s = eat ic l1 s ≫= eat ic l2.
Proof.
  revert s. induction l1 as [|a l1 IH]; intros s; simpl.
  - done.
  - destruct s as [|c s]; [done|]. destruct (atom_ok ic a c); [apply IH|done].
Qed.

Lemma eat_more ic l s s' rest :
  eat ic l s = Some s' -> eat ic l (s ++ rest) = Some (s' ++ rest).
Proof.
  revert s. induction l as [|a l IH]; intros [|c s]; simpl; try done.
  - intros [= <-]. done.
  - intros [= <-]. done.
  - destruct (atom_ok ic a c); [apply IH|done].
Qed.

Lemma exec_atoms_of ic r l :
  atoms_of r = Some l ->
  forall prev s g k,
    exec ic r prev s g k =
    match eat ic l s with
    | Some s' => k (seen prev (take (length l) s)) s' g
    | None => None
    end.
Proof.
  revert l. induction r as [| a | a | | i r IH | r1 IH1 r2 IH2]; intros l Hl; simpl in Hl; try done.
  - injection Hl as <-. intros prev s g k. simpl. by rewrite take_0.
  - injection Hl as <-. intros prev [|c s] g k; simpl; [done|].
    destruct (atom_ok ic a c); [|done]. by rewrite take_0.
  - destruct (atoms_of r1) as [l1|] eqn:E1; [|done].
    destruct (atoms_of r2) as [l2|] eqn:E2; [|done].
    injection Hl as <-. intros prev s g k. simpl.
    rewrite (IH1 l1 eq_refl), eat_app.
    destruct (eat ic l1 s) as [s1|] eqn:Es1; simpl; [|done].
    rewrite (IH2 l2 eq_refl).
    destruct (eat ic l2 s1) as [s2|] eqn:Es2; [|done].
    f_equal. rewrite <- seen_app. f_equal.
    pose proof (eat_split _ _ _ _ Es1) as [H1 H1'].
    pose proof (eat_split _ _ _ _ Es2) as [H2 H2'].
    rewrite length_app.
    transitivity (take (length l1 + length l2) (take (length l1) s ++ s1));
      [|by rewrite <- H1].
    by rewrite take_app_add'.
Qed.

(** The star gives up only when the rest fails after every number of
    repetitions it can take. *)
Lemma star_loop_None ok prev s g k :
  star_loop ok prev s g k = None ->
  forall n, n <= length s -> (forall c, c ∈ take n s -> ok c = true) ->
    k (seen prev (take n s)) (drop n s) g = None.
Proof.
  revert prev. induction s as [|c s IH]; intros prev H n Hn Hok; simpl in *.
  - by replace n with 0 by lia.
  - destruct n as [|n]; simpl.
    + destruct (ok c); [|done]. by destruct (star_loop ok (Some c) s g k).
    + rewrite seen_cons.
      assert (ok c = true) as Hc by (apply Hok; simpl; left).
      rewrite Hc in H.
      destruct (star_loop ok (Some c) s g k) eqn:E; [done|].
      apply IH; [done|lia|]. intros d Hd. apply Hok. simpl. by right.
Qed.

(** The star is greedy: its result is the one of the rest of the pattern
    after the largest number of repetitions for which the rest succeeds. *)
Lemma star_loop_Some ok prev s g k m :
  star_loop ok prev s g k = Some m ->
  exists n, n <= length s /\ (forall c, c ∈ take n s -> ok c = true) /\
    k (seen prev (take n s)) (drop n s) g = Some m /\
    forall n', n < n' -> n' <= length s -> (forall c, c ∈ take n' s -> ok c = true) ->
      k (seen prev (take n' s)) (drop n' s) g = None.
Proof.
  revert prev. induction s as [|c s IH]; intros prev H; simpl in *.
  - exists 0. split_and!; [done|by intros ? ?%elem_of_nil|done|]. intros; lia.
  - assert (k prev (c :: s) g = Some m ->
            (forall n', 0 < n' -> n' <= S (length s) ->
               (forall d, d ∈ take n' (c :: s) -> ok d = true) ->
               k (seen prev (take n' (c :: s))) (drop n' (c :: s)) g = None) ->
            exists n, n <= S (length s) /\ (forall d, d ∈ take n (c :: s) -> ok d = true) /\
              k (seen prev (take n (c :: s))) (drop n (c :: s)) g = Some m /\
              forall n', n < n' -> n' <= S (length s) ->
                (forall d, d ∈ take n' (c :: s) -> ok d = true) ->
                k (seen prev (take n' (c :: s))) (drop n' (c :: s)) g = None) as Hzero.
    { intros Hk Hlater. exists 0. split_and!; [lia|by intros ? ?%elem_of_nil|done|done]. }
    destruct (ok c) eqn:Hc.
    + destruct (star_loop ok (Some c) s g k) as [m'|] eqn:E.
      * injection H as ->. destruct (IH _ E) as (n & Hn & Hok & Hk & Hlast).
        exists (S n). simpl. rewrite seen_cons. split_and!; [lia| |done|].
        -- intros d [->|Hd]%elem_of_cons; [done|by apply Hok].
        -- intros [|n'] Hlt Hle Hok'; [lia|]. simpl. rewrite seen_cons.
           apply Hlast; [lia|lia|]. intros d Hd. apply Hok'. simpl. by right.
      * apply Hzero; [done|]. intros [|n'] Hlt Hle Hok'; [lia|]. simpl. rewrite seen_cons.
        eapply star_loop_None; [done|lia|]. intros d Hd. apply Hok'. simpl. by right.
    + apply Hzero; [done|]. intros [|n'] Hlt Hle Hok'; [lia|].
      assert (ok c = true) by (apply Hok'; simpl; left). congruence.
Qed.

Lemma search_from_None p prev s :
  search_from p prev s = None ->
  forall n, n <= length s ->
    match_here p (seen prev (take n s)) (drop n s) = None.
Proof.
  revert prev. induction s as [|c s IH]; intros prev H n Hn; simpl in *.
  - replace n with 0 by lia. change (match_here p prev [] = None).
    by destruct (match_here p prev []).
  - destruct (match_here p prev (c :: s)) eqn:E; [done|].
    destruct n as [|n]; simpl; [done|]. rewrite seen_cons. apply IH; [done|lia].
Qed.

(** [search] returns the match at the first position that has one. *)
Lemma search_from_Some p prev s m :
  search_from p prev s = Some m ->
  exists n, n <= length s /\
    match_here p (seen prev (take n s)) (drop n s) = Some m /\
    forall n', n' < n -> match_here p (seen prev (take n' s)) (drop n' s) = None.
Proof.
  revert prev. induction s as [|c s IH]; intros prev H; simpl in *.
  - exists 0. destruct (match_here p prev []) eqn:E; [|done]. injection H as ->.
    split_and!; [done|exact E|intros; lia].
  - destruct (match_here p prev (c :: s)) eqn:E.
    + injection H as ->. exists 0. split_and!; [lia|exact E|intros; lia].
    + destruct (IH _ H) as (n & Hn & Hm & Hfirst).
      exists (S n). simpl. rewrite seen_cons. split_and!; [lia|done|].
      intros [|n'] Hlt; simpl; [done|]. rewrite seen_cons. apply Hfirst. lia.
Qed.

Lemma search_from_here p prev s m :
  match_here p prev s = Some m -> search_from p prev s = Some m.
Proof. intros H. destruct s; simpl; by rewrite H. Qed.

End Matcher.

(* ================================================================== *)
(** ** The file-name pattern *)

Section Format.

Lemma exec_seq_atoms ic r1 l r2 prev s g k :
  atoms_of r1 = Some l ->
  exec ic (Seq r1 r2) prev s g k =
  match eat ic l s with
  | Some s' => exec ic r2 (seen prev (take (length l) s)) s' g k
  | None => None
  end.
Proof. intros Hl. simpl. by rewrite (exec_atoms_of _ _ _ Hl). Qed.

Lemma exec_seq_group ic i r1 l r2 prev s g k :
  atoms_of r1 = Some l ->
  exec ic (Seq (Group i r1) r2) prev s g k =
  match eat ic l s with
  | Some s' =>
      exec ic r2 (seen prev (take (length l) s)) s' ((i, take (length l) s) :: g) k
  | None => None
  end.
Proof.
  intros Hl. simpl. rewrite (exec_atoms_of _ _ _ Hl).
  destruct (eat ic l s) as [s'|] eqn:E; [|done].
  apply eat_length in E. by replace (length s - length s') with (length l) by lia.
Qed.

Lemma exec_tail prev s g :
  exec false tail_regex prev s g accept =
  match eat false tail_atoms s with
  | Some s' => Some ((2, take 10 (drop 1 s)) :: g, seen prev (take 15 s), s')
  | None => None
  end.
Proof.
  change tail_regex
    with (Seq (lits "_") (Seq (Group 2 date_regex) (cat [Atom Dot; lits "log"]))).
  change tail_atoms
    with ([Lit "_"%char] ++ (date_atoms ++ [Dot; Lit "l"; Lit "o"; Lit "g"]%char)).
  rewrite (exec_seq_atoms _ _ [Lit "_"%char]) by reflexivity.
  rewrite (eat_app false [Lit "_"%char]).
  destruct (eat false [Lit "_"%char] s) as [s1|] eqn:E1; cbn [mbind option_bind]; [|done].
  rewrite (exec_seq_group _ _ _ date_atoms) by reflexivity.
  rewrite (eat_app false date_atoms).
  destruct (eat false date_atoms s1) as [s2|] eqn:E2; cbn [mbind option_bind]; [|done].
  rewrite (exec_atoms_of _ _ [Dot; Lit "l"; Lit "o"; Lit "g"]%char) by reflexivity.
  destruct (eat false [Dot; Lit "l"; Lit "o"; Lit "g"]%char s2) as [s3|] eqn:E3; [|done].
  unfold accept.
  pose proof (eat_split _ _ _ _ E1) as [H1 H1'].
  pose proof (eat_split _ _ _ _ E2) as [H2 H2'].
  pose proof (eat_split _ _ _ _ E3) as [H3 H3'].
  pose proof (eat_drop _ _ _ _ E1) as D1.
  rewrite <- !seen_app. repeat f_equal.
  - by subst s1.
  - set (t1 := take (length [Lit "_"%char]) s) in *.
    set (t2 := take (length date_atoms) s1) in *.
    set (t3 := take (length [Dot; Lit "l"; Lit "o"; Lit "g"]%char) s2) in *.
    transitivity (take 15 ((t1 ++ t2 ++ t3) ++ s3)).
    + rewrite take_app_length'; [done|]. rewrite !length_app, H1', H2', H3'. done.
    + f_equal. rewrite <- !app_assoc. congruence.
Qed.

Lemma format_body :
  body log_format_regex = Seq (Group 1 (Star Dot)) tail_regex.
Proof. reflexivity. Qed.

Lemma dot_ok_take n (s : text) :
  (forall c, c ∈ take n s -> atom_ok false Dot c = true) <-> LF ∉ take n s.
Proof.
  split.
  - intros H Hin. apply H in Hin. vm_compute in Hin. discriminate Hin.
  - intros H c Hc. simpl. apply negb_true_iff, bool_decide_eq_false_2. by intros ->.
Qed.

(** A match of the file-name pattern at a given start: group 1 is the
    longest head without a line feed after which the rest matches. *)
Lemma match_here_format prev s m :
  match_here log_format_regex prev s = Some m ->
  exists n, n <= length s /\ (LF ∉ take n s) /\ anchor_at s n /\
    group m 1 = Some (take n s) /\
    forall n', n < n' -> n' <= length s -> LF ∉ take n' s -> ~ anchor_at s n'.
Proof.
  unfold match_here. rewrite format_body. cbn [ignorecase exec].
  destruct (star_loop _ _ _ _ _) as [[[g p'] s']|] eqn:E; [|done].
  intros [= <-].
  apply star_loop_Some in E as (n & Hn & Hok & Hk & Hlast).
  rewrite exec_tail in Hk.
  exists n. split_and!; [done|by apply dot_ok_take| | |].
  - unfold anchor_at. by destruct (eat false tail_atoms (drop n s)).
  - destruct (eat false tail_atoms (drop n s)); [|done]. injection Hk as <- <- <-.
    unfold group. simpl. rewrite length_drop. f_equal. f_equal. lia.
  - intros n' Hlt Hle Hlf [x Hx].
    specialize (Hlast n' Hlt Hle (proj2 (dot_ok_take n' s) Hlf)).
    by rewrite exec_tail, Hx in Hlast.
Qed.

Lemma match_here_format_None prev s :
  match_here log_format_regex prev s = None ->
  forall n, n <= length s -> LF ∉ take n s -> ~ anchor_at s n.
Proof.
  unfold match_here. rewrite format_body. cbn [ignorecase exec].
  destruct (star_loop _ _ _ _ _) as [[[g p'] s']|] eqn:E; [done|].
  intros _ n Hn Hlf [x Hx].
  eapply star_loop_None in E; [|exact Hn|by apply dot_ok_take].
  by rewrite exec_tail, Hx in E.
Qed.

End Format.

(* ================================================================== *)
(** ** Classification of file names *)

Section Classification.

Example classify_auth :
  classify log_format_regex (str "auth_2024-01-01.log") = Some (str "auth").
Proof. vm_compute. reflexivity. Qed.

Lemma digit_atom_ok c : atom_ok false digit_atom c = is_digit c.
Proof. unfold atom_ok, digit_atom, is_digit. by rewrite orb_false_r. Qed.

Lemma lit_atom_ok x c : atom_ok false (Lit x) c = bool_decide (c = x).
Proof. done. Qed.

(** An underscore, a date, any character but a line feed and [log]
    satisfy the rest of the pattern. *)
Lemma eat_tail_date date c post :
  is_date date = true -> c <> LF ->
  eat false tail_atoms (str "_" ++ date ++ c :: str "log" ++ post) = Some post.
Proof.
  intros Hd Hc.
  do 11 (destruct date as [|? date]; try done).
  unfold is_date in Hd. rewrite !andb_true_iff in Hd. destruct_and!.
  repeat match goal with H : bool_decide _ = true |- _ => apply bool_decide_eq_true_1 in H end.
  subst. cbn [str list_ascii_of_string app tail_atoms date_atoms replicate eat].
  rewrite !digit_atom_ok, !lit_atom_ok.
  repeat match goal with H : is_digit _ = true |- _ => rewrite H; clear H end.
  rewrite !bool_decide_eq_true_2 by done.
  cbn [atom_ok]. rewrite bool_decide_eq_false_2 by done. done.
Qed.

(** And nothing else does. *)
Lemma eat_tail_inv s s' :
  eat false tail_atoms s = Some s' ->
  exists date c, is_date date = true /\ c <> LF /\
    s = str "_" ++ date ++ c :: str "log" ++ s'.
Proof.
  intros H. cbn [tail_atoms date_atoms replicate app] in H.
  do 15 (destruct s as [|? s]; [done|];
         cbn [eat] in H;
         match type of H with (if ?b then _ else _) = _ => destruct b eqn:?; [|done] end).
  cbn [eat] in H. injection H as ->.
  repeat match goal with H : atom_ok false digit_atom _ = true |- _ =>
    rewrite digit_atom_ok in H end.
  repeat match goal with H : atom_ok false (Lit _) _ = true |- _ =>
    rewrite lit_atom_ok in H; apply bool_decide_eq_true_1 in H end.
  match goal with H : atom_ok false Dot ?c = true |- _ =>
    cbn [atom_ok] in H; apply negb_true_iff, bool_decide_eq_false_1 in H; rename H into Hc
  end.
  subst.
  match goal with |- context [ "_"%char :: ?y1 :: ?y2 :: ?y3 :: ?y4 :: _ :: ?m1 :: ?m2 :: _ :: ?d1 :: ?d2 :: ?c :: _ ] =>
    exists [y1; y2; y3; y4; "-"; m1; m2; "-"; d1; d2]%char, c
  end.
  split_and!; [|done|done].
  unfold is_date.
  repeat match goal with H : is_digit _ = true |- _ => rewrite H; clear H end.
  by rewrite !bool_decide_eq_true_2 by done.
Qed.

Lemma anchor_at_beyond s j : length s < j + 15 -> ~ anchor_at s j.
Proof.
  intros Hj [x Hx]. apply eat_length in Hx. rewrite length_drop in Hx.
  change (length tail_atoms) with 15 in Hx. lia.
Qed.

Lemma classify_search name :
  classify log_format_regex name =
  match search log_format_regex name with
  | Some m => group m 1
  | None => None
  end.
Proof. done. Qed.

(** A name is classified as soon as the rest of the pattern matches
    somewhere in it. *)
Lemma classify_is_Some name j :
  anchor_at name j -> is_Some (classify log_format_regex name).
Proof.
  intros Ha. rewrite classify_search. unfold search.
  destruct (search_from log_format_regex None name) as [m|] eqn:E.
  - apply search_from_Some in E as (n & _ & Hm & _).
    apply match_here_format in Hm as (k & _ & _ & _ & -> & _). done.
  - exfalso. destruct (decide (j <= length name)) as [Hj|Hj].
    + pose proof (search_from_None _ _ _ E j Hj) as Hm.
      eapply (match_here_format_None _ _ Hm 0); [lia|by intros ?%elem_of_nil|].
      unfold anchor_at in *. by rewrite drop_0.
    + eapply anchor_at_beyond; [|exact Ha]. lia.
Qed.

Lemma classify_Some_anchor name service :
  classify log_format_regex name = Some service ->
  exists i n, service = take n (drop i name) /\ anchor_at name (i + n).
Proof.
  rewrite classify_search. unfold search.
  destruct (search_from log_format_regex None name) as [m|] eqn:E; [|done].
  apply search_from_Some in E as (i & _ & Hm & _).
  apply match_here_format in Hm as (n & _ & _ & Ha & -> & _).
  intros [= <-]. exists i, n. split; [done|].
  unfold anchor_at in *. by rewrite drop_drop in Ha.
Qed.

(** Without line feeds in the name, group 1 runs from the start of the
    name to the last place where the rest of the pattern matches. *)
Lemma classify_last name service :
  LF ∉ name ->
  classify log_format_regex name = Some service ->
  exists j, service = take j name /\ anchor_at name j /\
    forall j', j < j' -> ~ anchor_at name j'.
Proof.
  intros Hlf. rewrite classify_search. unfold search.
  destruct (search_from log_format_regex None name) as [m|] eqn:E; [|done].
  assert (forall n, LF ∉ take n name) as Htake.
  { intros n Hin. apply Hlf. by apply (subseteq_take n name). }
  apply search_from_Some in E as (i & Hi & Hm & Hfirst).
  assert (i = 0) as ->.
  { destruct i as [|i]; [done|]. exfalso.
    specialize (Hfirst 0 ltac:(lia)). change (seen None (take 0 name)) with (@None ascii) in Hfirst.
    rewrite drop_0 in Hfirst.
    apply match_here_format in Hm as (n & Hn & _ & Ha & _).
    rewrite length_drop in Hn.
    eapply (match_here_format_None _ _ Hfirst (S i + n)); [lia|done|].
    unfold anchor_at in *. by rewrite drop_drop in Ha. }
  rewrite drop_0 in Hm.
  apply match_here_format in Hm as (n & Hn & _ & Ha & -> & Hlast).
  intros [= <-]. exists n. split_and!; [done|done|].
  intros j' Hlt. destruct (decide (j' <= length name)) as [Hj|Hj].
  - by apply Hlast.
  - apply anchor_at_beyond. lia.
Qed.

Lemma classify_service_date service date :
  LF ∉ service -> is_date date = true ->
  classify log_format_regex (service ++ str "_" ++ date ++ str ".log") = Some service.
Proof.
  intros Hlf Hd. set (name := service ++ str "_" ++ date ++ str ".log").
  assert (length name = length service + 15) as Hlen.
  { unfold name. rewrite !length_app.
    do 11 (destruct date as [|? date]; try done). }
  assert (anchor_at name (length service)) as Ha.
  { unfold anchor_at, name. rewrite drop_app_length.
    change (str ".log") with ("."%char :: str "log" ++ []).
    rewrite (eat_tail_date date "." []); done. }
  rewrite classify_search. unfold search.
  destruct (match_here log_format_regex None name) as [m|] eqn:E.
  - assert (search_from log_format_regex None name = Some m) as ->.
    { by apply search_from_here. }
    apply match_here_format in E as (n & Hn & _ & Han & -> & Hlast).
    f_equal. assert (n = length service) as ->.
    { destruct (decide (n < length service)) as [Hlt|Hge].
      - exfalso. apply (Hlast (length service)); [done|lia| |done].
        unfold name. by rewrite take_app_length.
      - destruct (decide (n = length service)); [done|].
        exfalso. eapply anchor_at_beyond; [|exact Han]. lia. }
    unfold name. by rewrite take_app_length.
  - exfalso. eapply (match_here_format_None _ _ E (length service)); [lia| |done].
    unfold name. by rewrite take_app_length.
Qed.

End Classification.

(* ================================================================== *)
(** ** The error marker *)

Section Marker.

Lemma lower_letter_word c : is_lower (lower c) = true -> is_word c = true.
Proof. destruct c as [[] [] [] [] [] [] [] []]; vm_compute; done. Qed.

Lemma eat_error s :
  eat true error_atoms s =
  if bool_decide (lower <$> take 5 s = str "error") then Some (drop 5 s) else None.
Proof.
  do 5 (destruct s as [|? s];
        [cbn; by rewrite ?bool_decide_eq_false_2 by done; repeat case_bool_decide|]).
  cbn [error_atoms str list_ascii_of_string fmap list_fmap eat atom_ok firstn skipn].
  rewrite take_0, drop_0. cbn [fmap list_fmap].
  change (lower "e") with "e"%char. change (lower "r") with "r"%char.
  change (lower "o") with "o"%char.
  repeat case_bool_decide; try done; simplify_eq.
  exfalso. match goal with H : _ <> _ |- _ => apply H end. congruence.
Qed.

Lemma error_head_word s :
  lower <$> take 5 s = str "error" ->
  word_opt (head s) = true /\ word_opt (seen None (take 5 s)) = true /\
  exists c1 c2 c3 c4 c5 rest, s = c1 :: c2 :: c3 :: c4 :: c5 :: rest /\
    is_word c1 = true /\ is_word c2 = true /\ is_word c3 = true /\
    is_word c4 = true /\ is_word c5 = true.
Proof.
  do 5 (destruct s as [|? s]; [done|]).
  cbn [take fmap list_fmap str list_ascii_of_string]. intros [= H1 H2 H3 H4 H5].
  assert (forall c x, lower c = x -> is_lower x = true -> is_word c = true) as Hw.
  { intros c x <-. apply lower_letter_word. }
  split_and!.
  - simpl. by eapply Hw.
  - unfold seen. simpl. by eapply Hw.
  - do 6 eexists. split; [done|]. split_and!; by eapply Hw.
Qed.

Lemma match_here_error prev s :
  match_here log_error_regex prev s =
  if whole_word_at prev s
  then Some (Matched (take 5 s) [] (seen prev (take 5 s)) (drop 5 s))
  else None.
Proof.
  unfold match_here, whole_word_at.
  change (body log_error_regex) with (Seq WordB (Seq (lits "error") (Seq WordB Eps))).
  cbn [ignorecase exec].
  rewrite (exec_atoms_of true (lits "error") error_atoms eq_refl), eat_error.
  change (length error_atoms) with 5.
  case_bool_decide as He; [|by rewrite andb_false_r; destruct (at_boundary prev s)].
  destruct (error_head_word _ He)
    as (_ & _ & c1 & c2 & c3 & c4 & c5 & rest & -> & Hw1 & _ & _ & _ & Hw5).
  change (seen prev (take 5 (c1 :: c2 :: c3 :: c4 :: c5 :: rest))) with (Some c5).
  change (drop 5 (c1 :: c2 :: c3 :: c4 :: c5 :: rest)) with rest.
  change (take 5 (c1 :: c2 :: c3 :: c4 :: c5 :: rest)) with [c1; c2; c3; c4; c5].
  unfold at_boundary, accept. cbn [head word_opt].
  rewrite Hw1, Hw5.
  destruct (word_opt prev), (word_opt (head rest)); cbn [negb andb xorb]; try done.
  replace (length (c1 :: c2 :: c3 :: c4 :: c5 :: rest) - length rest) with 5
    by (simpl; lia).
  done.
Qed.

(** After a whole-word occurrence, the next one can only start behind it. *)
Lemma whole_word_count_skip prev s :
  whole_word_at prev s = true ->
  whole_word_count prev s = S (whole_word_count (seen prev (take 5 s)) (drop 5 s)).
Proof.
  unfold whole_word_at at 1. rewrite !andb_true_iff.
  intros [[Hp He%bool_decide_eq_true_1] Hn].
  destruct (error_head_word _ He) as (_ & _ & c1 & c2 & c3 & c4 & c5 & rest & -> & ? & ? & ? & ? & ?).
  assert (whole_word_at prev (c1 :: c2 :: c3 :: c4 :: c5 :: rest) = true) as Hat.
  { unfold whole_word_at. rewrite Hp, Hn. by rewrite bool_decide_eq_true_2. }
  assert (forall c t, is_word c = true -> whole_word_at (Some c) t = false) as Hno.
  { intros c t Hc. unfold whole_word_at. simpl. by rewrite Hc. }
  cbn [whole_word_count]. rewrite Hat, !Hno by done. done.
Qed.

Lemma search_error s : forall prev,
  match search_from log_error_regex prev s with
  | None => whole_word_count prev s = 0
  | Some m =>
      whole m <> [] /\ length (unread m) < length s /\
      whole_word_count prev s = S (whole_word_count (last_seen m) (unread m))
  end.
Proof.
  induction s as [|c s IH]; intros prev.
  - simpl. rewrite match_here_error.
    assert (whole_word_at prev [] = false) as ->; [|done].
    unfold whole_word_at. rewrite (bool_decide_eq_false_2 _) by done.
    by rewrite andb_false_r.
  - cbn [search_from]. rewrite match_here_error.
    destruct (whole_word_at prev (c :: s)) eqn:Hat.
    + cbn [whole unread last_seen]. split_and!.
      * done.
      * rewrite length_drop. simpl. lia.
      * by apply whole_word_count_skip.
    + specialize (IH (Some c)).
      destruct (search_from log_error_regex (Some c) s) as [m|].
      * destruct IH as (? & ? & IH). split_and!; [done|simpl; lia|].
        cbn [whole_word_count]. by rewrite Hat.
      * cbn [whole_word_count]. by rewrite Hat.
Qed.

Lemma findall_error fuel : forall prev s,
  length s < fuel ->
  length (findall_from fuel log_error_regex prev s) = whole_word_count prev s.
Proof.
  induction fuel as [|fuel IH]; intros prev s Hlen; [lia|].
  cbn [findall_from]. pose proof (search_error s prev) as Hs.
  destruct (search_from log_error_regex prev s) as [m|]; [|done].
  destruct Hs as (Hne & Hlt & ->).
  destruct (whole m) as [|c t]; [done|].
  cbn [length]. f_equal. apply IH. lia.
Qed.

Lemma count_matches_error content :
  count_matches log_error_regex content = whole_word_count None content.
Proof. unfold count_matches, findall. apply findall_error. lia. Qed.

End Marker.

(* ================================================================== *)
(** ** Facts about the file system *)

Section Tree.

Implicit Types (t : list (path * node)) (p q : path) (n : node).

Lemma node_at_assoc t p : p <> [] -> node_at t p = assoc p t.
Proof. by destruct p. Qed.

Lemma assoc_app_Some t e p n : assoc p t = Some n -> assoc p (t ++ e) = Some n.
Proof.
  induction t as [|[q m] t IH]; simpl; [done|]. by case_decide.
Qed.

Lemma assoc_app_None t e p : assoc p t = None -> assoc p (t ++ e) = assoc p e.
Proof.
  induction t as [|[q m] t IH]; simpl; [done|]. by case_decide.
Qed.

Lemma assoc_put_eq t p n : assoc p (put p n t) = Some n.
Proof.
  induction t as [|[q m] t IH]; simpl.
  - by rewrite decide_True.
  - case_decide; simpl; [by rewrite decide_True|by rewrite decide_False].
Qed.

Lemma assoc_put_ne t p q n : q <> p -> assoc q (put p n t) = assoc q t.
Proof.
  intros Hne. induction t as [|[r m] t IH]; simpl.
  - by rewrite decide_False.
  - case_decide; simpl.
    + subst r. by rewrite !decide_False by done.
    + case_decide; [done|apply IH].
Qed.

Lemma assoc_remove_eq t p : assoc p (remove p t) = None.
Proof.
  induction t as [|[q m] t IH]; simpl; [done|].
  case_decide; simpl; [done|]. by rewrite decide_False.
Qed.

Lemma assoc_remove_ne t p q : q <> p -> assoc q (remove p t) = assoc q t.
Proof.
  intros Hne. induction t as [|[r m] t IH]; simpl; [done|].
  case_decide; simpl.
  - subst r. by rewrite decide_False.
  - by case_decide.
Qed.

Lemma node_at_app_Some t e p n : node_at t p = Some n -> node_at (t ++ e) p = Some n.
Proof. destruct p; [done|]. apply assoc_app_Some. Qed.

Lemma node_at_put_eq t p n : p <> [] -> node_at (put p n t) p = Some n.
Proof. intros. rewrite node_at_assoc by done. apply assoc_put_eq. Qed.

Lemma node_at_put_ne t p q n : q <> p -> node_at (put p n t) q = node_at t q.
Proof. intros. destruct q; [done|]. by apply assoc_put_ne. Qed.

Lemma node_at_remove_eq t p : p <> [] -> node_at (remove p t) p = None.
Proof. intros. rewrite node_at_assoc by done. apply assoc_remove_eq. Qed.

Lemma node_at_remove_ne t p q : q <> p -> node_at (remove p t) q = node_at t q.
Proof. intros. destruct q; [done|]. by apply assoc_remove_ne. Qed.

Lemma make_dirs_node_at t here todo t' p n :
  make_dirs t here todo = Ok t' -> node_at t p = Some n -> node_at t' p = Some n.
Proof.
  revert t here. induction todo as [|c rest IH]; intros t here H Hp; simpl in H.
  - by injection H as <-.
  - destruct (node_at t (here ++ [c])) as [[?|]|] eqn:E; [done| |].
    + by eapply IH.
    + eapply IH; [done|]. by apply node_at_app_Some.
Qed.

(** Creation only adds directories, at places where nothing was. *)
Lemma make_dirs_new t here todo t' p n :
  make_dirs t here todo = Ok t' -> node_at t' p = Some n ->
  node_at t p = Some n \/ (node_at t p = None /\ n = Dir).
Proof.
  revert t here. induction todo as [|c rest IH]; intros t here H Hp; simpl in H.
  - injection H as <-. by left.
  - destruct (node_at t (here ++ [c])) as [[?|]|] eqn:E; [done| |].
    + by eapply IH.
    + destruct (IH _ _ H Hp) as [H1|[H1 ->]].
      * destruct (node_at t p) as [m|] eqn:Et.
        -- left. by rewrite (node_at_app_Some _ _ _ _ Et) in H1.
        -- right. split; [done|]. destruct p as [|x p]; [done|].
           simpl in *. rewrite assoc_app_None in H1 by done.
           simpl in H1. case_decide; by simplify_eq.
      * right. split; [|done].
        destruct (node_at t p) eqn:Et; [|done].
        by rewrite (node_at_app_Some _ _ _ _ Et) in H1.
Qed.

Lemma make_dirs_made_from t here todo t' :
  make_dirs t here todo = Ok t' ->
  forall k, 1 <= k <= length todo -> node_at t' (here ++ take k todo) = Some Dir.
Proof.
  revert t here. induction todo as [|c rest IH]; intros t here H k Hk; simpl in *; [lia|].
  assert (forall t0, make_dirs t0 (here ++ [c]) rest = Ok t' ->
            node_at t0 (here ++ [c]) = Some Dir ->
            node_at t' (here ++ take k (c :: rest)) = Some Dir) as Hstep.
  { intros t0 H0 Hc. destruct k as [|k]; [lia|]. simpl.
    destruct k as [|k].
    - rewrite take_0. by eapply make_dirs_node_at.
    - rewrite (cons_middle c), app_assoc. eapply IH; [done|lia]. }
  destruct (node_at t (here ++ [c])) as [[?|]|] eqn:E; [done| |].
  - by apply (Hstep t).
  - apply (Hstep _ H).
    rewrite node_at_assoc by (by destruct here).
    rewrite assoc_app_None by (by rewrite <- node_at_assoc by (by destruct here)).
    simpl. by rewrite decide_True.
Qed.

Lemma make_dirs_made t p t' : make_dirs t [] p = Ok t' -> dirs_made t' p.
Proof. intros H k Hk. by apply (make_dirs_made_from _ _ _ _ H). Qed.

Lemma make_dirs_noop_from t here todo :
  (forall k, 1 <= k <= length todo -> node_at t (here ++ take k todo) = Some Dir) ->
  make_dirs t here todo = Ok t.
Proof.
  revert here. induction todo as [|c rest IH]; intros here H; simpl; [done|].
  pose proof (H 1 ltac:(simpl; lia)) as H1. simpl in H1. rewrite take_0 in H1.
  rewrite H1. apply IH. intros k Hk.
  rewrite <- app_assoc. apply (H (S k)). simpl. lia.
Qed.

Lemma make_dirs_noop t p : dirs_made t p -> make_dirs t [] p = Ok t.
Proof. intros H. by apply make_dirs_noop_from. Qed.

End Tree.

(* ================================================================== *)
(** ** Routing *)

Section Routing.

Variable re : pattern.

Implicit Types (w : world) (f g p : path).

Lemma name_snoc p (x : text) : name (p ++ [x]) = x.
Proof. unfold name. by rewrite last_snoc. Qed.

Lemma parent_snoc p (x : text) : parent (p ++ [x]) = p.
Proof.
  unfold parent. rewrite length_app. simpl.
  replace (length p + 1 - 1) with (length p) by lia. by rewrite take_app_length.
Qed.

Lemma dest_of_name service f : name (dest_of service f) = name f.
Proof. apply name_snoc. Qed.

Lemma dest_of_parent service f : parent (dest_of service f) = service_dir service.
Proof. apply parent_snoc. Qed.

Lemma dest_of_nonempty service f : dest_of service f <> [].
Proof. unfold dest_of. by destruct (service_dir service). Qed.

Lemma service_dir_prefix service :
  exists k, 1 <= k <= length (service_dir_made service) /\
    service_dir service = take k (service_dir_made service).
Proof.
  unfold service_dir_made, service_dir.
  destruct (bool_decide (service = str "..")) eqn:E2.
  - apply bool_decide_eq_true_1 in E2 as ->.
    exists 3. split; [simpl; lia|]. done.
  - destruct (bool_decide (service = []) || bool_decide (service = str ".")).
    + exists 4. split; [simpl; lia|]. done.
    + exists 5. split; [simpl; lia|]. done.
Qed.

Lemma dirs_made_service_dir t service :
  dirs_made t (service_dir_made service) ->
  node_at t (service_dir service) = Some Dir.
Proof.
  intros H. destruct (service_dir_prefix service) as (k & Hk & ->). by apply H.
Qed.

Lemma route_eq f w :
  route re f w =
  match classify re (name f) with
  | None => (Raise AttributeError, w)
  | Some service =>
      if blocked w (service_dir_made service)
      then (Raise (PermissionError (service_dir_made service)), w)
      else match make_dirs (tree w) [] (service_dir_made service) with
           | Ok t1 => place f (dest_of service f) (set_tree t1 w)
           | Raise e => (Raise e, w)
           end
  end.
Proof.
  unfold route. destruct (classify re (name f)) as [service|]; [|done].
  unfold bind, mkdir, place, dest_of.
  destruct (blocked w (service_dir_made service)); [reflexivity|].
  cbn [negb andb].
  destruct (make_dirs (tree w) [] (service_dir_made service)); reflexivity.
Qed.

Lemma place_cases f dest w r w' :
  place f dest w = (r, w') -> placing f dest w r w'.
Proof.
  unfold place, try, bind, path_exists.
  destruct (blocked w dest) eqn:Hb.
  { simpl. intros [= <- <-]. apply placing_failed; [by left|intros; congruence]. }
  destruct (node_at (tree w) dest) as [nd|] eqn:Hd.
  { rewrite bool_decide_eq_true_2 by done. simpl. intros [= <- <-].
    apply placing_skip; [done|]. by rewrite Hd. }
  rewrite bool_decide_eq_false_2 by (by intros [? ?]).
  unfold move. rewrite Hd. cbn [is_directory andb].
  destruct (node_at (tree w) f) as [nf|] eqn:Hf.
  2:{ intros _. by apply placing_gone. }
  destruct (blocked w f) eqn:Hbf.
  { simpl. intros [= <- <-]. apply placing_failed; [right; by rewrite Hf|done]. }
  destruct (way w dest (seq 0 (length dest))) as [e|] eqn:Hw.
  { intros _. by eapply placing_no_way. }
  destruct nf as [c|].
  - intros [= <- <-]. by apply placing_moved.
  - intros _. by apply placing_directory.
Qed.

Lemma way_clear w p steps :
  (forall k, k ∈ steps ->
     node_at (tree w) (take k p) = Some Dir /\ is_locked w (take k p) = false) ->
  way w p steps = None.
Proof.
  induction steps as [|k steps IH]; intros H; simpl; [done|].
  destruct (H k) as [-> ->]; [left|]. apply IH. intros j Hj. apply H. by right.
Qed.

Lemma blocked_false w p k :
  blocked w p = false -> k < length p -> is_locked w (take k p) = false.
Proof.
  unfold blocked. intros H Hk. destruct (is_locked w (take k p)) eqn:E; [|done].
  rewrite <- H. symmetry. apply existsb_exists. exists k. split; [|done].
  apply in_seq. lia.
Qed.


(** Once the service directory is made, nothing but a lock can stand on
    the way to the destination. *)
Lemma way_dest t1 w service f :
  dirs_made t1 (service_dir_made service) ->
  blocked w (dest_of service f) = false ->
  way (set_tree t1 w) (dest_of service f) (seq 0 (length (dest_of service f))) = None.
Proof.
  intros Hd Hb. apply way_clear. intros k Hk%elem_of_seq. split.
  - cbn [tree set_tree]. unfold dest_of in *. rewrite length_app in Hk. simpl in Hk.
    rewrite take_app_le by lia.
    destruct k as [|k]; [by rewrite take_0|].
    destruct (service_dir_prefix service) as (k0 & Hk0 & Heq). rewrite Heq in *.
    rewrite length_take in Hk. rewrite take_take. apply Hd. lia.
  - apply (blocked_false _ _ _ Hb). lia.
Qed.

End Routing.

Section Idempotence.

Variable re : pattern.

Implicit Types (w : world) (f g p : path).

Lemma add_err_nil w : add_err [] w = w.
Proof. destruct w. unfold add_err. simpl. by rewrite app_nil_r. Qed.

Lemma add_err_app m1 m2 w : add_err m2 (add_err m1 w) = add_err (m1 ++ m2) w.
Proof. unfold add_err. simpl. by rewrite app_assoc. Qed.

Lemma set_tree_same w : set_tree (tree w) w = w.
Proof. by destruct w. Qed.

Lemma blocked_locked w w' p : locked w' = locked w -> blocked w' p = blocked w p.
Proof. intros H. unfold blocked, is_locked. by rewrite H. Qed.

Lemma is_locked_locked w w' p : locked w' = locked w -> is_locked w' p = is_locked w p.
Proof. intros H. unfold is_locked. by rewrite H. Qed.

(** The shape of a step of the loop that ends normally. *)
Lemma route_shape g w wm :
  route re g w = (Ok tt, wm) -> routable re w g ->
  exists service t1,
    classify re (name g) = Some service /\
    blocked w (service_dir_made service) = false /\
    make_dirs (tree w) [] (service_dir_made service) = Ok t1 /\
    locked wm = locked w /\
    ((tree wm = t1 /\
      (blocked w (dest_of service g) = true \/
       is_Some (node_at t1 (dest_of service g)) \/
       (blocked w g = true /\ is_Some (node_at t1 g)))) \/
     (exists c, node_at t1 g = Some (File c) /\ node_at t1 (dest_of service g) = None /\
        blocked w (dest_of service g) = false /\
        tree wm = put (dest_of service g) (File c) (remove g t1))).
Proof.
  rewrite route_eq. intros H Hr.
  destruct (classify re (name g)) as [service|] eqn:Hc; [|done].
  destruct (blocked w (service_dir_made service)) eqn:Hb; [done|].
  destruct (make_dirs (tree w) [] (service_dir_made service)) as [t1|] eqn:Hm; [|done].
  exists service, t1. do 3 (split; [done|]).
  apply place_cases in H.
  assert (node_at t1 g = Some Dir -> node_at t1 (dest_of service g) = None -> False) as Hdir.
  { intros Hg Hd. destruct Hr as [[c Hf]|(s' & Hs' & [n Hn] & _)].
    - apply (make_dirs_node_at _ _ _ _ _ _ Hm) in Hf. congruence.
    - assert (s' = service) as -> by congruence.
      apply (make_dirs_node_at _ _ _ _ _ _ Hm) in Hn. congruence. }
  inversion H as [Hbd Hex|e Hwhy Habs|c Hbd Habs Hf|? ? Hg Hd|? ? Hg Hd|e ? ? Hbd Hway];
    subst; simpl in *.
  - split; [done|]. left. split; [done|]. by right; left.
  - split; [done|]. left. split; [done|].
    destruct Hwhy as [?|?]; [by left|by do 2 right].
  - split; [done|]. right. by exists c.
  - exfalso. by apply Hdir.
  - exfalso. destruct Hr as [[c Hf]|(s' & Hs' & [n Hn] & Hnb)].
    + apply (make_dirs_node_at _ _ _ _ _ _ Hm) in Hf. congruence.
    + assert (s' = service) as -> by congruence.
      apply (make_dirs_node_at _ _ _ _ _ _ Hm) in Hn. congruence.
  - exfalso. rewrite way_dest in Hway; [done| |done]. by eapply make_dirs_made.
Qed.

(** A file that is there and cannot be reached stays where it is. *)
Lemma route_blocked_kept g w wm n :
  route re g w = (Ok tt, wm) -> blocked w g = true ->
  node_at (tree w) g = Some n -> node_at (tree wm) g = Some n.
Proof.
  rewrite route_eq. intros H Hb Hn.
  destruct (classify re (name g)) as [service|]; [|done].
  destruct (blocked w (service_dir_made service)); [done|].
  destruct (make_dirs (tree w) [] (service_dir_made service)) as [t1|] eqn:Hm; [|done].
  apply (make_dirs_node_at _ _ _ _ _ _ Hm) in Hn.
  revert H. unfold place, try, bind, path_exists.
  change (blocked (set_tree t1 w) (dest_of service g)) with (blocked w (dest_of service g)).
  destruct (blocked w (dest_of service g)); [by intros [= <-]|].
  cbn [tree set_tree].
  destruct (node_at t1 (dest_of service g)) as [nd|] eqn:Hd.
  { rewrite bool_decide_eq_true_2 by done. by intros [= <-]. }
  rewrite bool_decide_eq_false_2 by (by intros [? ?]).
  unfold move. cbn [tree set_tree]. rewrite Hd, Hn. cbn [is_directory andb].
  change (blocked (set_tree t1 w) g) with (blocked w g). rewrite Hb.
  by intros [= <-].
Qed.

(** A step keeps every entry other than the file it routes... *)
Lemma route_keeps g w wm p n :
  route re g w = (Ok tt, wm) -> routable re w g ->
  node_at (tree w) p = Some n -> p <> g -> node_at (tree wm) p = Some n.
Proof.
  intros H Hr Hp Hne.
  destruct (route_shape _ _ _ H Hr) as (service & t1 & Hc & Hb & Hm & Hl & Hcase).
  apply (make_dirs_node_at _ _ _ _ _ _ Hm) in Hp.
  destruct Hcase as [[-> _]|(c & Hg & Hd & Hbd & ->)]; [done|].
  rewrite node_at_put_ne by congruence. by rewrite node_at_remove_ne.
Qed.

(** ... and that file either stays as it is or goes to its destination,
    where nothing was before. *)
Lemma route_source g w wm :
  route re g w = (Ok tt, wm) -> routable re w g ->
  (forall n, node_at (tree w) g = Some n -> node_at (tree wm) g = Some n) \/
  (exists service, classify re (name g) = Some service /\
     is_file (tree w) g /\ node_at (tree w) (dest_of service g) = None /\
     is_file (tree wm) (dest_of service g) /\ blocked w (dest_of service g) = false).
Proof.
  intros H Hr.
  destruct (route_shape _ _ _ H Hr) as (service & t1 & Hc & Hb & Hm & Hl & Hcase).
  destruct Hcase as [[-> _]|(c & Hg & Hd & Hbd & ->)].
  - left. intros n Hn. by eapply make_dirs_node_at.
  - right. exists service. split_and!; try done.
    + exists c. destruct (make_dirs_new _ _ _ _ _ _ Hm Hg) as [?|[_ ?]]; done.
    + destruct (node_at (tree w) (dest_of service g)) eqn:E; [|done].
      apply (make_dirs_node_at _ _ _ _ _ _ Hm) in E. congruence.
    + exists c. apply node_at_put_eq, dest_of_nonempty.
Qed.

(** An entry at the destination of a file stays there. *)
Lemma route_keeps_dest g w wm f service :
  route re g w = (Ok tt, wm) -> routable re w g ->
  classify re (name f) = Some service ->
  is_Some (node_at (tree w) (dest_of service f)) ->
  is_Some (node_at (tree wm) (dest_of service f)).
Proof.
  intros H Hr Hc [n Hn].
  destruct (decide (dest_of service f = g)) as [Heq|Hne].
  - destruct (route_source _ _ _ H Hr) as [Hsame|(s' & Hs' & _ & Habs & _)].
    + exists n. rewrite Heq in *. by apply Hsame.
    + exfalso. assert (name g = name f) as Hname by (by rewrite <- Heq, dest_of_name).
      rewrite Hname in Hs'. assert (s' = service) as -> by congruence.
      assert (dest_of service g = dest_of service f) as Hd.
      { unfold dest_of. by rewrite Hname. }
      congruence.
  - exists n. by eapply route_keeps.
Qed.

Lemma route_keeps_dir g w wm p :
  route re g w = (Ok tt, wm) -> routable re w g ->
  node_at (tree w) p = Some Dir -> node_at (tree wm) p = Some Dir.
Proof.
  intros H Hr Hp. destruct (decide (p = g)) as [->|Hne]; [|by eapply route_keeps].
  destruct (route_source _ _ _ H Hr) as [Hsame|(s' & _ & [c Hf] & _)]; [by apply Hsame|].
  congruence.
Qed.

Lemma route_locked g w wm :
  route re g w = (Ok tt, wm) -> routable re w g -> locked wm = locked w.
Proof.
  intros H Hr. by destruct (route_shape _ _ _ H Hr) as (? & ? & _ & _ & _ & Hl & _).
Qed.

Lemma route_keeps_settled g w wm f :
  route re g w = (Ok tt, wm) -> routable re w g -> settled re w f -> settled re wm f.
Proof.
  intros H Hr (service & Hc & Hb & Hd & Hcase).
  pose proof (route_locked _ _ _ H Hr) as Hl.
  exists service. split_and!; [done|by rewrite (blocked_locked _ _ _ Hl)| |].
  - intros k Hk. eapply route_keeps_dir; [done..|]. by apply Hd.
  - rewrite !(blocked_locked _ _ _ Hl).
    destruct Hcase as [?|[?|[Hbf [n Hn]]]]; [by left| |].
    + right; left. by eapply route_keeps_dest.
    + do 2 right. split; [done|]. exists n.
      destruct (decide (f = g)) as [->|Hne].
      * by eapply route_blocked_kept.
      * by eapply route_keeps.
Qed.

Lemma route_keeps_routable g w wm f :
  route re g w = (Ok tt, wm) -> routable re w g -> routable re w f -> routable re wm f.
Proof.
  intros H Hr Hf.
  pose proof (route_locked _ _ _ H Hr) as Hl.
  destruct Hf as [[c Hf]|(service & Hc & He & Hb)].
  - destruct (decide (f = g)) as [->|Hne].
    + destruct (route_source _ _ _ H Hr) as [Hsame|(s' & Hs' & _ & _ & [c' Hf'] & Hb)].
      * left. exists c. by apply Hsame.
      * right. exists s'. split_and!; [done|by rewrite Hf'|by rewrite (blocked_locked _ _ _ Hl)].
    + left. exists c. by eapply route_keeps.
  - right. exists service. split_and!; [done| |by rewrite (blocked_locked _ _ _ Hl)].
    by eapply route_keeps_dest.
Qed.

(** After its step, a file is settled. *)
Lemma route_settles g w wm :
  route re g w = (Ok tt, wm) -> routable re w g -> settled re wm g.
Proof.
  intros H Hr.
  destruct (route_shape _ _ _ H Hr) as (service & t1 & Hc & Hb & Hm & Hl & Hcase).
  pose proof (make_dirs_made _ _ _ Hm) as Hd.
  exists service. split_and!; [done|by rewrite (blocked_locked _ _ _ Hl)| |].
  - destruct Hcase as [[-> _]|(c & Hg & Habs & Hbd & ->)]; [done|].
    intros k Hk. specialize (Hd k Hk).
    rewrite node_at_put_ne by congruence. rewrite node_at_remove_ne by congruence. done.
  - rewrite !(blocked_locked _ _ _ Hl).
    destruct Hcase as [[-> ?]|(c & Hg & Habs & Hbd & ->)]; [done|].
    right; left. rewrite node_at_put_eq by apply dest_of_nonempty. done.
Qed.

(** The first run leaves every file it went through settled. *)
Lemma first_run logs : forall w w1,
  for_each logs (route re) w = (Ok tt, w1) ->
  (forall f, f ∈ logs -> routable re w f) ->
  locked w1 = locked w /\
  (forall f, settled re w f -> settled re w1 f) /\
  (forall f, routable re w f -> routable re w1 f) /\
  (forall f, f ∈ logs -> settled re w1 f).
Proof.
  induction logs as [|g rest IH]; intros w w1 H Hall; simpl in H.
  - injection H as <-. split_and!; try done. by intros f ?%elem_of_nil.
  - unfold bind in H. destruct (route re g w) as [[[]|e] wm] eqn:Hg; [|done].
    assert (routable re w g) as Hrg by (apply Hall; left).
    destruct (IH wm w1 H) as (Hl & Hs & Hr & Hin).
    { intros f Hf. eapply route_keeps_routable; [done..|]. apply Hall. by right. }
    split_and!.
    + rewrite Hl. by eapply route_locked.
    + intros f Hf. apply Hs. by eapply route_keeps_settled.
    + intros f Hf. apply Hr. by eapply route_keeps_routable.
    + intros f [->|Hf]%elem_of_cons; [|by apply Hin].
      apply Hs. by eapply route_settles.
Qed.

(** Routing a settled file only writes one line to the error stream: the
    skip notice when the destination is seen to be taken. *)
Lemma route_settled f w :
  settled re w f ->
  exists m, route re f w = (Ok tt, add_err [m] w) /\
    forall service, classify re (name f) = Some service ->
      is_Some (node_at (tree w) (dest_of service f)) ->
      blocked w (dest_of service f) = false ->
      m = Warning_exists (dest_of service f).
Proof.
  intros (service & Hc & Hb & Hd & Hcase).
  rewrite route_eq, Hc, Hb, (make_dirs_noop _ _ Hd), set_tree_same.
  assert (forall m, (forall s', Some service = Some s' ->
              is_Some (node_at (tree w) (dest_of s' f)) ->
              blocked w (dest_of s' f) = false -> m = Warning_exists (dest_of s' f)) ->
            forall s', Some service = Some s' ->
              is_Some (node_at (tree w) (dest_of s' f)) ->
              blocked w (dest_of s' f) = false -> m = Warning_exists (dest_of s' f)) as Hid by auto.
  unfold place, try, bind, path_exists.
  destruct (blocked w (dest_of service f)) eqn:Hbd.
  { eexists. split; [reflexivity|]. intros s' [= <-] _ ?. congruence. }
  destruct (node_at (tree w) (dest_of service f)) as [nd|] eqn:Hn.
  { rewrite bool_decide_eq_true_2 by done. eexists. split; [reflexivity|].
    by intros s' [= <-] _ _. }
  rewrite bool_decide_eq_false_2 by (by intros [? ?]).
  assert (blocked w f = true /\ is_Some (node_at (tree w) f)) as [Hbf [nf Hf]].
  { destruct Hcase as [?|[[? ?]|?]]; done. }
  unfold move. rewrite Hn, Hf, Hbf. cbn [is_directory andb].
  eexists. split; [reflexivity|]. intros s' [= <-] [? ?]; congruence.
Qed.

Lemma settled_add_err msgs w f : settled re w f -> settled re (add_err msgs w) f.
Proof. done. Qed.

(** The second run: every step is a skip or a repeated failure. *)
Lemma second_run logs : forall w,
  (forall f, f ∈ logs -> settled re w f) ->
  exists msgs, for_each logs (route re) w = (Ok tt, add_err msgs w) /\
    forall f service, f ∈ logs -> classify re (name f) = Some service ->
      is_Some (node_at (tree w) (dest_of service f)) ->
      blocked w (dest_of service f) = false ->
      Warning_exists (dest_of service f) ∈ msgs.
Proof.
  induction logs as [|g rest IH]; intros w Hall.
  - exists []. rewrite add_err_nil. split; [done|]. by intros f s ?%elem_of_nil.
  - destruct (route_settled g w) as (m & Hg & Hm); [apply Hall; left|].
    destruct (IH (add_err [m] w)) as (msgs & Hrest & Hmsgs).
    { intros f Hf. apply settled_add_err, Hall. by right. }
    exists (m :: msgs). split.
    + simpl. unfold bind. rewrite Hg, Hrest. by rewrite add_err_app.
    + intros f service [->|Hf]%elem_of_cons Hc He Hb.
      * apply elem_of_cons. left. symmetry. by apply Hm.
      * apply elem_of_cons. right. by eapply Hmsgs.
Qed.

End Idempotence.

(* ================================================================== *)
(** ** Auditing and the report *)

Section Audit.

Variable error_regex : pattern.

Implicit Types (w : world) (p report : path).

Lemma put_put t p n1 n2 : put p n2 (put p n1 t) = put p n2 t.
Proof.
  induction t as [|[q m] t IH]; simpl.
  - by rewrite decide_True.
  - case_decide; simpl; [by rewrite decide_True|]. rewrite decide_False by done.
    by rewrite IH.
Qed.

Lemma put_same t p n : assoc p t = Some n -> put p n t = t.
Proof.
  induction t as [|[q m] t IH]; simpl; [done|].
  case_decide; [by intros [= ->]|]. intros Hp. by rewrite IH.
Qed.

Lemma read_text_readable w p :
  readable w p -> read_text p w = (Ok (content (tree w) p), w).
Proof.
  intros (Hb & Hl & c & Hc). unfold read_text, content. by rewrite Hb, Hc, Hl.
Qed.

Lemma for_each_app {A} (l1 l2 : list A) (body : A -> M unit) w :
  for_each (l1 ++ l2) body w =
  match for_each l1 body w with
  | (Ok _, w') => for_each l2 body w'
  | (Raise e, w') => (Raise e, w')
  end.
Proof.
  revert w. induction l1 as [|x l1 IH]; intros w; simpl; [done|].
  unfold bind. destruct (body x w) as [[[]|e] w']; [apply IH|done].
Qed.

(** The loop over readable files appends one line for each, in order. *)
Lemma audit_loop report logs : forall w c0,
  report <> [] -> node_at (tree w) report = Some (File c0) ->
  report ∉ logs -> (forall p, p ∈ logs -> readable w p) ->
  for_each logs (audit error_regex report) w =
  (Ok tt, set_tree (put report (File (c0 ++ concat (line_of error_regex (tree w) <$> logs))) (tree w)) w).
Proof.
  induction logs as [|p rest IH]; intros w c0 Hne Hr Hnotin Hall.
  - simpl. rewrite app_nil_r, put_same, set_tree_same; [done|].
    by rewrite <- node_at_assoc.
  - assert (p <> report) as Hp by (intros ->; apply Hnotin; left).
    cbn [for_each]. unfold bind at 1, audit at 1, bind at 1.
    rewrite read_text_readable by (apply Hall; left).
    unfold fwrite. rewrite Hr.
    set (w1 := set_tree _ w).
    assert (forall q, q <> report -> node_at (tree w1) q = node_at (tree w) q) as Hsame.
    { intros q Hq. unfold w1. simpl. by apply node_at_put_ne. }
    rewrite (IH w1 (c0 ++ line_of error_regex (tree w) p)).
    + assert (line_of error_regex (tree w1) <$> rest = line_of error_regex (tree w) <$> rest) as ->.
      { apply Forall_fmap_ext_1, Forall_forall. intros q Hq. unfold line_of, content.
        rewrite Hsame; [done|]. intros ->. apply Hnotin. by right. }
      unfold w1, set_tree. simpl. by rewrite put_put, <- app_assoc.
    + done.
    + unfold w1. simpl. by apply node_at_put_eq.
    + intros Hin. apply Hnotin. by right.
    + intros q Hq. destruct (Hall q) as (Hb & Hl & c & Hc); [by right|].
      split_and!; [done|done|]. exists c. rewrite Hsame; [done|].
      intros ->. apply Hnotin. by right.
Qed.

Lemma open_w_Ok report w w0 :
  open_w report w = (Ok tt, w0) -> w0 = set_tree (put report (File []) (tree w)) w.
Proof.
  unfold open_w. destruct (way w report _); [done|].
  destruct (node_at (tree w) report) as [[c|]|].
  - destruct (is_locked w report); [done|]. by intros [= <-].
  - done.
  - by intros [= <-].
Qed.

Lemma open_w_Raise report w e w0 : open_w report w = (Raise e, w0) -> w0 = w.
Proof.
  unfold open_w. destruct (way w report _); [by intros [= _ <-]|].
  destruct (node_at (tree w) report) as [[c|]|].
  - destruct (is_locked w report); [by intros [= _ <-]|done].
  - by intros [= _ <-].
  - done.
Qed.

(** Writing at [p] changes nothing on the way to [p]. *)
Lemma way_put w p n steps :
  (forall k, k ∈ steps -> k < length p) ->
  way (set_tree (put p n (tree w)) w) p steps = way w p steps.
Proof.
  induction steps as [|k steps IH]; intros H; simpl; [done|].
  rewrite node_at_put_ne.
  2:{ intros Heq. apply (f_equal length) in Heq. rewrite length_take in Heq.
      specialize (H k ltac:(left)). lia. }
  rewrite IH by (intros j Hj; apply H; by right). done.
Qed.

Lemma way_skip w p steps1 steps2 :
  (forall j, j ∈ steps1 ->
     node_at (tree w) (take j p) = Some Dir /\ is_locked w (take j p) = false) ->
  way w p (steps1 ++ steps2) = way w p steps2.
Proof.
  induction steps1 as [|k steps1 IH]; intros H; simpl; [done|].
  destruct (H k) as [-> ->]; [left|]. apply IH. intros j Hj. apply H. by right.
Qed.

(** A regular file on the way, with open directories down to it. *)
Lemma way_under_file w p k c :
  k < length p -> node_at (tree w) (take k p) = Some (File c) ->
  (forall j, j < k ->
     node_at (tree w) (take j p) = Some Dir /\ is_locked w (take j p) = false) ->
  way w p (seq 0 (length p)) = Some (NotADirectoryError p).
Proof.
  intros Hk Hf Hdirs.
  replace (length p) with (k + S (length p - S k)) by lia.
  rewrite seq_app, way_skip.
  - simpl. by rewrite Hf.
  - intros j Hj%elem_of_seq. apply Hdirs. lia.
Qed.

(** When every listed file can be read, the report holds exactly their
    lines, in listing order, whatever it held before. *)
Lemma find_error_in_logs_all root report w w0 :
  report <> [] -> open_w report w = (Ok tt, w0) ->
  blocked w root = false ->
  report ∉ logs_below root w0 ->
  (forall p, p ∈ logs_below root w0 -> readable w0 p) ->
  find_error_in_logs root error_regex report w =
  (Ok tt, set_tree (put report
                      (File (concat (line_of error_regex (tree w0) <$> logs_below root w0)))
                      (tree w)) w).
Proof.
  intros Hne Hopen Hroot Hnotin Hall.
  unfold find_error_in_logs, try, bind. rewrite Hopen.
  pose proof (open_w_Ok _ _ _ Hopen) as Hw0.
  assert (blocked w0 root = false) as Hroot0 by (by subst w0).
  unfold logs_below in *. unfold rglob_log in *. rewrite Hroot0 in *.
  cbn [drain fst pending] in *.
  rewrite (audit_loop report _ w0 []); [| done | | done | done].
  - subst w0. simpl. by rewrite put_put.
  - subst w0. simpl. by apply node_at_put_eq.
Qed.

(** The audit ends at the first file it cannot read: the files listed
    after it get no line. *)
Lemma find_error_in_logs_stops root report w w0 before bad after e :
  report <> [] -> open_w report w = (Ok tt, w0) ->
  blocked w root = false ->
  logs_below root w0 = before ++ bad :: after ->
  report ∉ before -> (forall p, p ∈ before -> readable w0 p) ->
  (forall w1, locked w1 = locked w0 ->
     (forall q, q <> report -> node_at (tree w1) q = node_at (tree w0) q) ->
     read_text bad w1 = (Raise e, w1)) ->
  audit_errors e = Some (eprint (Error_exn e)) ->
  find_error_in_logs root error_regex report w =
  (Ok tt, add_err [Error_exn e]
            (set_tree (put report (File (concat (line_of error_regex (tree w0) <$> before))) (tree w)) w)).
Proof.
  intros Hne Hopen Hroot Hlogs Hnotin Hall Hbad He.
  unfold find_error_in_logs, try, bind. rewrite Hopen.
  pose proof (open_w_Ok _ _ _ Hopen) as Hw0.
  assert (blocked w0 root = false) as Hroot0 by (by subst w0).
  unfold logs_below in Hlogs. unfold rglob_log in *. rewrite Hroot0 in *.
  cbn [drain fst pending] in *.
  rewrite Hlogs, for_each_app.
  rewrite (audit_loop report before w0 []); [| done | | done | done].
  2:{ subst w0. simpl. by apply node_at_put_eq. }
  cbn [for_each]. unfold bind at 1, audit at 1, bind at 1.
  rewrite Hbad; [| done |].
  - rewrite He. unfold eprint, add_err. subst w0. simpl. by rewrite put_put.
  - intros q Hq. simpl. by apply node_at_put_ne.
Qed.

Lemma below_spec root p :
  below root p = true <-> length root < length p /\ take (length root) p = root.
Proof. unfold below. by rewrite andb_true_iff, !bool_decide_eq_true. Qed.

Lemma reachable_spec w root p :
  reachable w root p = true <->
  forall k, length root <= k < length p ->
    node_at (tree w) (take k p) = Some Dir /\ is_locked w (take k p) = false.
Proof.
  unfold reachable. rewrite forallb_forall. split.
  - intros H k Hk. specialize (H k). rewrite in_seq in H.
    specialize (H ltac:(lia)). apply andb_prop in H as [Hd Hl]. split.
    + by destruct (node_at (tree w) (take k p)) as [[?|]|].
    + by apply negb_true_iff.
  - intros H k Hk%in_seq. destruct (H k ltac:(lia)) as [-> ->]. done.
Qed.

Lemma ends_with_spec suffix s :
  ends_with suffix s = true <-> exists stem, s = stem ++ suffix.
Proof.
  unfold ends_with. rewrite andb_true_iff, !bool_decide_eq_true. split.
  - intros [Hl Hd]. exists (take (length s - length suffix) s).
    transitivity (take (length s - length suffix) s ++ drop (length s - length suffix) s).
    + symmetry. apply take_drop.
    + by rewrite Hd.
  - intros [stem ->]. rewrite length_app. split; [lia|].
    replace (length stem + length suffix - length suffix) with (length stem) by lia.
    apply drop_app_length.
Qed.

(** What the listing holds: the entries below the root whose name ends in
    [.log] and that are reached through directories that can be listed. *)
Lemma logs_below_spec root w p :
  blocked w root = false ->
  p ∈ logs_below root w <->
  (exists n, (p, n) ∈ tree w) /\
  length root < length p /\ take (length root) p = root /\
  (forall k, length root <= k < length p ->
     node_at (tree w) (take k p) = Some Dir /\ is_locked w (take k p) = false) /\
  exists stem, name p = stem ++ str ".log".
Proof.
  intros Hb. unfold logs_below, rglob_log. rewrite Hb. cbn [pending].
  rewrite list_elem_of_omap. split.
  - intros ([q n] & Hin & Hsel). cbn [fst] in Hsel.
    destruct (below root q) eqn:E1, (reachable w root q) eqn:E2,
      (ends_with (str ".log") (name q)) eqn:E3; try done.
    injection Hsel as <-.
    apply below_spec in E1 as [? ?]. apply ends_with_spec in E3.
    split_and!; [by exists n|done|done| |done]. by apply reachable_spec.
  - intros ((n & Hin) & E1 & E1' & E2 & E3). exists (p, n). split; [done|].
    cbn [fst].
    rewrite (proj2 (below_spec _ _) (conj E1 E1')), (proj2 (reachable_spec _ _ _) E2),
      (proj2 (ends_with_spec _ _) E3).
    done.
Qed.

(** The listing follows the order of the directory entries. *)
Lemma selection_sublist (keep : path -> bool) (t : list (path * node)) :
  sublist (omap (fun e : path * node => if keep e.1 then Some e.1 else None) t) (t.*1).
Proof.
  induction t as [|[q n] t IH]; [constructor|].
  cbn [omap list_omap fmap list_fmap fst]. destruct (keep q).
  - by apply sublist_skip.
  - by apply sublist_cons.
Qed.

Lemma logs_below_sublist root w : sublist (logs_below root w) ((tree w).*1).
Proof.
  unfold logs_below, rglob_log. destruct (blocked w root); [apply sublist_nil_l|].
  cbn [pending].
  apply (selection_sublist
           (fun q => below root q && reachable w root q && ends_with (str ".log") (name q))).
Qed.

End Audit.

(* ================================================================== *)
(** ** The main block *)

Section Main.

Implicit Types (w : world) (dir p : path).

Lemma omap_nil {A B} (f : A -> option B) (l : list A) :
  (forall x, x ∈ l -> f x = None) -> omap f l = [].
Proof.
  induction l as [|x l IH]; intros H; simpl; [done|].
  rewrite (H x) by left. apply IH. intros y Hy. apply H. by right.
Qed.

Lemma glob_log_empty dir w :
  blocked w dir = false -> no_logs (tree w) dir -> glob_log dir w = (Ok (Gen []), w).
Proof.
  intros Hb H. unfold glob_log. rewrite Hb.
  destruct (negb (is_directory (node_at (tree w) dir)) || is_locked w dir); [done|].
  rewrite omap_nil; [done|]. intros [p n] Hin. cbn [fst].
  destruct (decide (parent p = dir)) as [Hp|Hp].
  - rewrite (H p n Hin Hp). by rewrite andb_false_r.
  - by rewrite (bool_decide_eq_false_2 _ Hp).
Qed.

Lemma run_pipeline_no_logs script dir w :
  blocked w dir = false -> no_logs (tree w) dir ->
  run_pipeline script dir w =
  (Raise (SystemExit 1), add_err [No_log_files script dir] w).
Proof.
  intros Hb H. unfold run_pipeline, try, bind. by rewrite glob_log_empty.
Qed.

(** Whatever the source directory holds, the routing loop is entered
    with a generator that has nothing left. *)
Lemma run_pipeline_audit_only script dir w :
  run_pipeline script dir w = audit_only script dir w.
Proof.
  unfold run_pipeline, audit_only, try, bind.
  destruct (glob_log dir w) as [[[found]|e] w1]; [|done].
  cbn [drain pending fst snd]. by destruct (length found =? 0).
Qed.

Lemma make_dirs_entries t here todo t' e :
  make_dirs t here todo = Ok t' -> e ∈ t' ->
  e ∈ t \/ exists k, 1 <= k <= length todo /\ e = (here ++ take k todo, Dir).
Proof.
  revert t here. induction todo as [|c rest IH]; intros t here H He; simpl in H.
  - injection H as <-. by left.
  - assert (forall t0, make_dirs t0 (here ++ [c]) rest = Ok t' ->
              (forall x, x ∈ t0 -> x ∈ t \/ x = (here ++ [c], Dir)) ->
              e ∈ t \/ exists k, 1 <= k <= length (c :: rest) /\
                                 e = (here ++ take k (c :: rest), Dir)) as Hstep.
    { intros t0 H0 Ht0. destruct (IH _ _ H0 He) as [Hin|(k & Hk & ->)].
      - destruct (Ht0 _ Hin) as [?| ->]; [by left|]. right. exists 1.
        split; [simpl; lia|]. simpl. by rewrite take_0.
      - right. exists (S k). split; [simpl; lia|]. simpl. by rewrite <- app_assoc. }
    destruct (node_at t (here ++ [c])) as [[?|]|]; [done| |].
    + apply (Hstep t H). by left.
    + apply (Hstep _ H). intros x [?| ->%list_elem_of_singleton]%elem_of_app; [by left|by right].
Qed.

Lemma make_dirs_dest_no_logs t t' dir :
  make_dirs t [] DEST_DIR = Ok t' -> no_logs t dir -> no_logs t' dir.
Proof.
  intros H Hno p n Hin Hp.
  destruct (make_dirs_entries _ _ _ _ _ H Hin) as [?|(k & Hk & [= -> ->])]; [by eapply Hno|].
  simpl in Hk. do 5 (destruct k as [|k]; [try lia; done|]). lia.
Qed.

Lemma make_dirs_same_files t here todo t' :
  make_dirs t here todo = Ok t' -> same_files t t'.
Proof.
  intros H p c. split.
  - intros Hp. by destruct (make_dirs_new _ _ _ _ _ _ H Hp) as [?|[_ ?]].
  - intros Hp. by eapply make_dirs_node_at.
Qed.

Lemma same_files_refl t : same_files t t.
Proof. done. Qed.

(** With a source directory that is there, the main block either stops
    before the pipeline, leaving the tree as it was, or enters the pipeline
    with at most the destination directory added. *)
Lemma main_reaches script dir rest w r w' :
  main script (dir :: rest) w = (r, w') ->
  node_at (tree w) dir = Some Dir -> blocked w dir = false ->
  (exists e, r = Raise e /\ tree w' = tree w) \/
  (exists w2, run_pipeline script dir w2 = (r, w') /\ locked w2 = locked w /\
     (tree w2 = tree w \/ make_dirs (tree w) [] DEST_DIR = Ok (tree w2))).
Proof.
  intros H Hdir Hb. unfold main in H.
  unfold bind at 1 in H. unfold path_exists at 1 in H. rewrite Hb in H.
  rewrite bool_decide_eq_true_2 in H by (by rewrite Hdir). cbn [negb] in H.
  unfold bind at 1 in H. unfold is_dir at 1 in H. rewrite Hb, Hdir in H.
  cbn [negb is_directory] in H.
  unfold bind at 1 in H. unfold get at 1 in H.
  unfold bind at 1 in H. unfold path_exists at 1 in H.
  destruct (blocked w (REPORT_FILE w)); [injection H as <- <-; left; eauto|].
  unfold bind at 1 in H.
  set (ask := if bool_decide (is_Some (node_at (tree w) (REPORT_FILE w))) then _ else _) in H.
  assert (exists ra wa, ask w = (ra, wa) /\ tree wa = tree w /\ locked wa = locked w) as (ra & wa & Ha & Hta & Hla).
  { unfold ask. case_bool_decide; [|by eexists _, _].
    unfold bind, inputYesNo, bind, print. simpl.
    destruct (answers w) as [|[] ?]; simpl; by eexists _, _. }
  rewrite Ha in H. destruct ra as [[]|e]; [|injection H as <- <-; left; eauto].
  unfold bind at 1 in H. unfold path_exists at 1 in H.
  rewrite (blocked_locked _ _ _ Hla) in H.
  destruct (blocked w DEST_DIR) eqn:Hbd; [injection H as <- <-; left; eauto|].
  unfold bind at 1 in H.
  case_bool_decide as Hex; cbn [negb] in H.
  { unfold ret in H. right. exists wa. split; [done|]. split; [done|]. by left. }
  revert H. unfold bind at 1. unfold eprint at 1. unfold bind at 1.
  unfold inputYesNo, bind at 1, print at 1. cbn [answers tree locked cwd stdout stderr].
  destruct (answers wa) as [|a more]; [intros [= <- <-]; left; eauto|].
  set (wq := World (tree wa) (locked wa) (cwd wa) more
               (stdout wa ++ [Prompt_create DEST_DIR])
               (stderr wa ++ [No_destination script DEST_DIR])).
  assert (blocked wq DEST_DIR = false) as Hbq by (rewrite <- Hbd; by apply blocked_locked).
  unfold try, mkdir. cbn [negb andb].
  destruct a.
  - cbv beta. rewrite Hbq. change (tree wq) with (tree wa).
    rewrite (bool_decide_eq_false_2 _ Hex), Hta.
    destruct (make_dirs (tree w) [] DEST_DIR) as [t1|e] eqn:Hm.
    + intros H. right. exists (set_tree t1 wq). split; [exact H|]. split; [done|]. by right.
    + destruct e; simpl; intros [= <- <-]; left; eauto.
  - simpl. intros [= <- <-]. left. eauto.
Qed.

End Main.

(* ================================================================== *)
(** ** The claims *)

Section Claims.

Import Sample Cases.

(** C1 (the code does otherwise). Claim: on a source directory with at
    least one log file, every such file is passed to the routing stage
    exactly once and the audit then runs. On the sample source directory
    with two log files, [main] ends normally but [list(logs_found)] has
    emptied the generator before [organize_logs] gets it: the second
    listing prints no item, both files are still in the source directory,
    nothing is at their destinations and the report is empty. The same two
    files given to [organize_logs] in a fresh generator are moved. For
    every input, lines 106-120 do what they would do without the call of
    [organize_logs]. *)
Theorem main_routes_no_file :
  (forall script_name dir w,
     run_pipeline script_name dir w = audit_only script_name dir w) /\
  let '(r, w') := main script [src] start in
  r = Ok tt /\
  stdout w' = [Items []] /\
  node_at (tree w') (src ++ [auth1]) = node_at (tree start) (src ++ [auth1]) /\
  node_at (tree w') (src ++ [auth2]) = node_at (tree start) (src ++ [auth2]) /\
  node_at (tree w') (auth_dir ++ [auth1]) = None /\
  node_at (tree w') (auth_dir ++ [auth2]) = None /\
  node_at (tree w') report = Some (File []) /\
  let '(r2, w2) := organize_logs (Gen [src ++ [auth1]; src ++ [auth2]]) log_format_regex start in
  r2 = Ok tt /\
  node_at (tree w2) (src ++ [auth1]) = None /\
  node_at (tree w2) (auth_dir ++ [auth1]) = node_at (tree start) (src ++ [auth1]).
Proof. split; [apply run_pipeline_audit_only|]. vm_compute. repeat split. Qed.

(** C2 (the code does otherwise). Claim: a file that cannot be read during
    the audit is reported and left out, and the other files are still
    audited. In [find_error_in_logs] the [try] encloses the whole loop:
    with [a.log] unreadable and listed before the readable [b.log], which
    holds one match, the error is printed and the loop is over: the report
    has no line for [b.log]. *)
Theorem audit_stops_at_unreadable_file :
  readable unreadable_first b_log /\
  count_matches log_error_regex (content (tree unreadable_first) b_log) = 1 /\
  logs_below DEST_DIR unreadable_first = [a_log; b_log] /\
  let '(r, w') := find_error_in_logs DEST_DIR log_error_regex report unreadable_first in
  r = Ok tt /\
  stderr w' = [Error_exn (PermissionError a_log)] /\
  node_at (tree w') report = Some (File []).
Proof.
  split; [|vm_compute; repeat split].
  split_and!; [reflexivity|reflexivity|]. eexists. reflexivity.
Qed.

(** C3 (the code does otherwise). Claim: a name the pattern does not match
    gives a per-file failure and the other files are still routed. The
    search returns [None], [.group(1)] raises [AttributeError], which
    nothing catches: the loop ends there and the matching file listed
    after it stays in the source directory. *)
Theorem unmatched_name_ends_routing :
  classify log_format_regex notes = None /\
  classify log_format_regex auth1 = Some (str "auth") /\
  let '(r, w') := organize_logs (Gen [src ++ [notes]; src ++ [auth1]]) log_format_regex with_notes in
  r = Raise AttributeError /\
  w' = with_notes /\
  node_at (tree w') (src ++ [auth1]) = Some (File (str "boot ok. Error: disk full")) /\
  node_at (tree w') (auth_dir ++ [auth1]) = None.
Proof. vm_compute. repeat split. Qed.

(** C4, as stated, fails on its last clause: the marker does not match
    within [errors]. *)
Lemma errors_has_no_match :
  count_matches log_error_regex (str "errors") = 0 /\
  findall log_error_regex (str "errors") = [].
Proof. vm_compute. by split. Qed.

(** C4 (amended). The count written for a file is a function of its text
    only: the number of positions where [error] occurs, in any case, with
    no word character (letter, digit or underscore) just before and none
    just after. An occurrence inside a larger token is not counted:
    neither [errorless] nor [errors] holds a match. *)
Theorem audit_counts_whole_words :
  (forall content, count_matches log_error_regex content = whole_word_count None content) /\
  (forall report logfile w,
     audit log_error_regex report logfile w =
     (content <- read_text logfile ;;
      fwrite report (report_line (name logfile) (whole_word_count None content))) w) /\
  count_matches log_error_regex (str "errorless") = 0 /\
  count_matches log_error_regex (str "errors") = 0 /\
  count_matches log_error_regex (str "Error: no ERROR, one error") = 3.
Proof.
  split_and!; [apply count_matches_error| |by vm_compute..].
  intros report logfile w. unfold audit, bind.
  destruct (read_text logfile w) as [[c|e] w']; [|done].
  by rewrite count_matches_error.
Qed.

(** C5, as stated, fails: a name with an empty service part is classified
    (its service is the empty text), so success does not require the whole
    pattern. *)
Lemma empty_service_accepted :
  classify log_format_regex (str "_2024-01-01.log") = Some [] /\
  ~ (forall name, is_Some (classify log_format_regex name) <-> whole_pattern name).
Proof.
  split; [by vm_compute|]. intros H.
  destruct (proj1 (H (str "_2024-01-01.log"))) as (service & date & Hne & Hd & Heq).
  { exists []. by vm_compute. }
  apply (f_equal length) in Heq. rewrite !length_app in Heq.
  do 11 (destruct date as [|? date]; try done).
  destruct service; [done|]. simpl in Heq. lia.
Qed.

(** C5 (amended). A name is classified whenever it contains an
    underscore, a date of 4, 2 and 2 digits with dashes and [.log]; the
    part before may be empty and anything may follow. A name is rejected
    unless an underscore and such a date are followed in it by one
    character and [log]: a name without the date, or with another
    extension, is rejected. *)
Theorem classify_accepts_and_rejects :
  (forall before date after,
     is_date date = true ->
     is_Some (classify log_format_regex (before ++ str "_" ++ date ++ str ".log" ++ after))) /\
  (forall name,
     is_Some (classify log_format_regex name) ->
     exists before date c after,
       is_date date = true /\ name = before ++ str "_" ++ date ++ c :: str "log" ++ after) /\
  classify log_format_regex (str "auth.log") = None /\
  classify log_format_regex (str "auth_2024-01-01.txt") = None.
Proof.
  split_and!; [| |by vm_compute..].
  - intros before date after Hd. apply (classify_is_Some _ (length before)).
    unfold anchor_at. rewrite drop_app_length.
    change (str ".log" ++ after) with ("."%char :: str "log" ++ after).
    by rewrite eat_tail_date.
  - intros name [service H].
    apply classify_Some_anchor in H as (i & n & _ & [s' Ha]).
    apply eat_tail_inv in Ha as (date & c & Hd & _ & Heq).
    exists (take (i + n) name), date, c, s'. split; [done|].
    by rewrite <- Heq, take_drop.
Qed.

Lemma classify_accepts_and_rejects_witness :
  is_Some (classify log_format_regex (str "web" ++ str "_" ++ str "2024-01-01" ++ str ".log" ++ str ".gz")).
Proof. apply (proj1 classify_accepts_and_rejects). reflexivity. Defined.

(** C6. When the destination of a file is taken, the step of the loop for
    that file writes the skip notice and nothing else: the entry at the
    destination is what it was, the source entry is still there, and the
    loop goes on with the files that follow. *)
Theorem taken_destination_is_skipped log_regex log others service w w1 n :
  classify log_regex (name log) = Some service ->
  mkdir true (service_dir_made service) w = (Ok tt, w1) ->
  node_at (tree w) (dest_of service log) = Some n ->
  blocked w (dest_of service log) = false ->
  organize_logs (Gen (log :: others)) log_regex w =
    organize_logs (Gen others) log_regex
      (add_err [Warning_exists (dest_of service log)] w1) /\
  node_at (tree w1) (dest_of service log) = Some n /\
  (forall m, node_at (tree w) log = Some m -> node_at (tree w1) log = Some m).
Proof.
  intros Hc Hmk Hn Hb. unfold mkdir in Hmk.
  destruct (blocked w (service_dir_made service)) eqn:Hbm; [done|].
  cbn [negb andb] in Hmk.
  destruct (make_dirs (tree w) [] (service_dir_made service)) as [t1|] eqn:Hm; [|done].
  injection Hmk as <-.
  pose proof (make_dirs_node_at _ _ _ _ _ _ Hm Hn) as Hn1.
  split_and!; [|done|by intros m; apply (make_dirs_node_at _ _ _ _ _ _ Hm)].
  unfold organize_logs. cbn [drain fst pending for_each]. unfold bind at 1.
  rewrite route_eq, Hc, Hbm, Hm. unfold place, try, bind, path_exists.
  change (blocked (set_tree t1 w) (dest_of service log)) with (blocked w (dest_of service log)).
  rewrite Hb. cbn [tree set_tree]. rewrite Hn1.
  by rewrite bool_decide_eq_true_2 by done.
Qed.

Lemma taken_destination_is_skipped_witness :
  organize_logs (Gen [src ++ [auth1]; src ++ [auth2]]) log_format_regex collision =
    organize_logs (Gen [src ++ [auth2]]) log_format_regex
      (add_err [Warning_exists (dest_of (str "auth") (src ++ [auth1]))] collision) /\
  node_at (tree collision) (dest_of (str "auth") (src ++ [auth1])) = Some (File (str "kept")) /\
  (forall m, node_at (tree collision) (src ++ [auth1]) = Some m ->
             node_at (tree collision) (src ++ [auth1]) = Some m).
Proof.
  apply (taken_destination_is_skipped log_format_regex (src ++ [auth1]) [src ++ [auth2]]
           (str "auth") collision collision (File (str "kept")));
    reflexivity.
Defined.

(** C7. After a run of the routing loop over regular files that ended
    normally, running it again over the same files, or over any of them,
    leaves the tree as it is (no file is added and none is overwritten)
    and only writes to the error stream; each file the first run moved
    away from the source gets the skip notice of its destination. *)
Theorem second_routing_changes_nothing log_regex logs again w0 w1 :
  (forall f, f ∈ logs -> is_file (tree w0) f) ->
  organize_logs (Gen logs) log_regex w0 = (Ok tt, w1) ->
  (forall f, f ∈ again -> f ∈ logs) ->
  exists msgs w2,
    organize_logs (Gen again) log_regex w1 = (Ok tt, w2) /\
    tree w2 = tree w1 /\ stderr w2 = stderr w1 ++ msgs /\
    forall f, f ∈ again -> node_at (tree w1) f = None ->
      exists service, classify log_regex (name f) = Some service /\
        is_Some (node_at (tree w1) (dest_of service f)) /\
        Warning_exists (dest_of service f) ∈ msgs.
Proof.
  intros Hfiles Hrun Hsub. unfold organize_logs in *. cbn [drain fst pending] in *.
  destruct (first_run log_regex logs w0 w1 Hrun) as (_ & _ & Hr & Hs).
  { intros f Hf. left. by apply Hfiles. }
  destruct (second_run log_regex again w1) as (msgs & Hagain & Hmsgs).
  { intros f Hf. by apply Hs, Hsub. }
  exists msgs, (add_err msgs w1). split_and!; [done..|].
  intros f Hf Hgone.
  destruct (Hr f) as [[c Hc]|(service & Hc & He & Hb)].
  { left. by apply Hfiles, Hsub. }
  { congruence. }
  exists service. split_and!; [done..|]. by eapply Hmsgs.
Qed.

Lemma second_routing_changes_nothing_witness :
  exists msgs w2,
    organize_logs (Gen [src ++ [auth1]; src ++ [auth2]]) log_format_regex
      (snd (organize_logs (Gen [src ++ [auth1]; src ++ [auth2]]) log_format_regex start))
    = (Ok tt, w2) /\
    tree w2 = tree (snd (organize_logs (Gen [src ++ [auth1]; src ++ [auth2]]) log_format_regex start)) /\
    stderr w2 = stderr (snd (organize_logs (Gen [src ++ [auth1]; src ++ [auth2]]) log_format_regex start)) ++ msgs /\
    forall f, f ∈ [src ++ [auth1]; src ++ [auth2]] ->
      node_at (tree (snd (organize_logs (Gen [src ++ [auth1]; src ++ [auth2]]) log_format_regex start))) f = None ->
      exists service, classify log_format_regex (name f) = Some service /\
        is_Some (node_at (tree (snd (organize_logs (Gen [src ++ [auth1]; src ++ [auth2]]) log_format_regex start))) (dest_of service f)) /\
        Warning_exists (dest_of service f) ∈ msgs.
Proof.
  apply (second_routing_changes_nothing log_format_regex
           [src ++ [auth1]; src ++ [auth2]] [src ++ [auth1]; src ++ [auth2]] start).
  - intros f Hf. apply list_elem_of_In in Hf. simpl in Hf.
    destruct Hf as [<-|[<-|[]]]; eexists; reflexivity.
  - reflexivity.
  - intros f Hf. exact Hf.
Defined.

(** C8. For a name made of a service without line feed, an underscore, a
    date and [.log], the classification is exactly the service; and in any
    name without line feed that is classified, the service is everything
    before the last place where an underscore, a date, a character and
    [log] are found, however many such places the name has. *)
Theorem classify_binds_to_last_date :
  (forall service date,
     LF ∉ service -> is_date date = true ->
     classify log_format_regex (service ++ str "_" ++ date ++ str ".log") = Some service) /\
  (forall name service,
     LF ∉ name -> classify log_format_regex name = Some service ->
     exists j, service = take j name /\ anchor_at name j /\
       forall j', j < j' -> ~ anchor_at name j') /\
  classify log_format_regex (str "db_2023-12-31.log_2024-01-01.log")
    = Some (str "db_2023-12-31.log").
Proof.
  split_and!; [apply classify_service_date|apply classify_last|by vm_compute].
Qed.

Lemma classify_binds_to_last_date_witness :
  classify log_format_regex (str "auth" ++ str "_" ++ str "2024-01-01" ++ str ".log")
  = Some (str "auth").
Proof.
  apply (proj1 classify_binds_to_last_date (str "auth") (str "2024-01-01")).
  - apply (bool_decide_unpack _). vm_compute. exact I.
  - reflexivity.
Defined.

(** C9. Opening the report empties it (or creates it), and when every
    log file below the audited directory can be read the report then holds
    exactly one line per listed file, in listing order, each made of the
    file name, a colon and a space, the number of whole-word occurrences
    of [error] in decimal, [ errores] and a line feed. The files listed are
    the entries below the audited directory whose name ends in [.log],
    reached through directories that can be listed, in the order of the
    directory entries. On the sample tree, where [a.log] holds 2 matches
    and [b.log] none and a report of an earlier run is there, the report
    ends up as the two lines [a.log: 2 errores] and [b.log: 0 errores] and
    nothing else. *)
Theorem report_has_one_line_per_file root report_file w w0 :
  report_file <> [] ->
  open_w report_file w = (Ok tt, w0) ->
  blocked w root = false ->
  report_file ∉ logs_below root w0 ->
  (forall p, p ∈ logs_below root w0 -> readable w0 p) ->
  (exists w',
     find_error_in_logs root log_error_regex report_file w = (Ok tt, w') /\
     node_at (tree w') report_file =
       Some (File (concat ((fun p => name p ++ str ": " ++
                                     decimal (whole_word_count None (content (tree w) p)) ++
                                     str " errores" ++ [LF])
                           <$> logs_below root w0))) /\
     stdout w' = stdout w /\ stderr w' = stderr w) /\
  node_at (tree w0) report_file = Some (File []) /\
  (forall p, p ∈ logs_below root w0 <->
     (exists n, (p, n) ∈ tree w0) /\
     length root < length p /\ take (length root) p = root /\
     (forall k, length root <= k < length p ->
        node_at (tree w0) (take k p) = Some Dir /\ is_locked w0 (take k p) = false) /\
     exists stem, name p = stem ++ str ".log") /\
  sublist (logs_below root w0) ((tree w0).*1) /\
  count_matches log_error_regex (content (tree audited_before) a_log) = 2 /\
  count_matches log_error_regex (content (tree audited_before) b_log) = 0 /\
  node_at (tree audited_before) report = Some (File (str "old report")) /\
  find_error_in_logs DEST_DIR log_error_regex report audited_before =
    (Ok tt, set_tree (put report
                        (File (str "a.log: 2 errores" ++ [LF] ++
                               str "b.log: 0 errores" ++ [LF]))
                        (tree audited_before)) audited_before) /\
  report_line (str "a.log") 2 = str "a.log: 2 errores" ++ [LF] /\
  report_line (str "b.log") 0 = str "b.log: 0 errores" ++ [LF].
Proof.
  intros Hne Hopen Hroot Hnotin Hall.
  pose proof (open_w_Ok _ _ _ Hopen) as Hw0.
  split_and!; [| | | |by vm_compute..].
  - eexists. split; [by apply find_error_in_logs_all|].
    split; [|done]. cbn [tree set_tree]. rewrite node_at_put_eq by done.
    do 3 f_equal. apply Forall_fmap_ext_1, Forall_forall. intros p Hp.
    unfold line_of, report_line. rewrite count_matches_error.
    do 4 f_equal. unfold content. subst w0. cbn [tree set_tree].
    rewrite node_at_put_ne; [done|]. by intros ->.
  - subst w0. cbn [tree set_tree]. by apply node_at_put_eq.
  - intros p. apply logs_below_spec. by subst w0.
  - apply logs_below_sublist.
Qed.

Lemma report_has_one_line_per_file_witness :
  (exists w',
     find_error_in_logs DEST_DIR log_error_regex report audited_before = (Ok tt, w') /\
     node_at (tree w') report =
       Some (File (concat ((fun p => name p ++ str ": " ++
                                     decimal (whole_word_count None
                                                (content (tree audited_before) p)) ++
                                     str " errores" ++ [LF])
                           <$> logs_below DEST_DIR (snd (open_w report audited_before))))) /\
     stdout w' = stdout audited_before /\ stderr w' = stderr audited_before) /\
  node_at (tree (snd (open_w report audited_before))) report = Some (File []) /\
  (forall p, p ∈ logs_below DEST_DIR (snd (open_w report audited_before)) <->
     (exists n, (p, n) ∈ tree (snd (open_w report audited_before))) /\
     length DEST_DIR < length p /\ take (length DEST_DIR) p = DEST_DIR /\
     (forall k, length DEST_DIR <= k < length p ->
        node_at (tree (snd (open_w report audited_before))) (take k p) = Some Dir /\
        is_locked (snd (open_w report audited_before)) (take k p) = false) /\
     exists stem, name p = stem ++ str ".log") /\
  sublist (logs_below DEST_DIR (snd (open_w report audited_before)))
          ((tree (snd (open_w report audited_before))).*1) /\
  count_matches log_error_regex (content (tree audited_before) a_log) = 2 /\
  count_matches log_error_regex (content (tree audited_before) b_log) = 0 /\
  node_at (tree audited_before) report = Some (File (str "old report")) /\
  find_error_in_logs DEST_DIR log_error_regex report audited_before =
    (Ok tt, set_tree (put report
                        (File (str "a.log: 2 errores" ++ [LF] ++
                               str "b.log: 0 errores" ++ [LF]))
                        (tree audited_before)) audited_before) /\
  report_line (str "a.log") 2 = str "a.log: 2 errores" ++ [LF] /\
  report_line (str "b.log") 0 = str "b.log: 0 errores" ++ [LF].
Proof.
  apply (report_has_one_line_per_file DEST_DIR report audited_before
           (snd (open_w report audited_before))).
  - discriminate.
  - reflexivity.
  - reflexivity.
  - apply (bool_decide_unpack _). vm_compute. exact I.
  - intros p Hp. apply list_elem_of_In in Hp. vm_compute in Hp.
    destruct Hp as [<-|[<-|[]]]; (split_and!; [reflexivity|reflexivity|eexists; reflexivity]).
Defined.

(** C10. With a source directory that exists and has no entry whose name
    ends in [.log], the pipeline prints that no log files were found and
    exits with status 1, the tree untouched; and [main] as a whole ends
    with an exception (that exit, or one raised earlier by the checks of
    the report file and of the destination directory) with every regular
    file where it was: nothing is routed and no report is written. *)
Theorem no_log_files_is_fatal script_name dir more_args w :
  node_at (tree w) dir = Some Dir ->
  blocked w dir = false ->
  no_logs (tree w) dir ->
  run_pipeline script_name dir w =
    (Raise (SystemExit 1), add_err [No_log_files script_name dir] w) /\
  exists e w',
    main script_name (dir :: more_args) w = (Raise e, w') /\
    same_files (tree w) (tree w').
Proof.
  intros Hdir Hb Hno. split; [by apply run_pipeline_no_logs|].
  destruct (main script_name (dir :: more_args) w) as [r w'] eqn:Hmain.
  destruct (main_reaches _ _ _ _ _ _ Hmain Hdir Hb) as [(e & -> & Ht)|(w2 & Hrun & Hl2 & Hw2)].
  - exists e, w'. split; [done|]. rewrite Ht. apply same_files_refl.
  - assert (no_logs (tree w2) dir /\ same_files (tree w) (tree w2)) as [Hno2 Hsame].
    { destruct Hw2 as [->|Hm]; [by split|]. split.
      - by eapply make_dirs_dest_no_logs.
      - by eapply make_dirs_same_files. }
    rewrite (run_pipeline_no_logs _ _ _ (eq_trans (blocked_locked _ _ _ Hl2) Hb) Hno2) in Hrun.
    injection Hrun as <- <-.
    eexists _, _. split; [done|]. exact Hsame.
Qed.

Lemma no_log_files_is_fatal_witness :
  run_pipeline script src no_source_logs =
    (Raise (SystemExit 1), add_err [No_log_files script src] no_source_logs) /\
  exists e w',
    main script [src] no_source_logs = (Raise e, w') /\
    same_files (tree no_source_logs) (tree w').
Proof.
  apply (no_log_files_is_fatal script src [] no_source_logs).
  - reflexivity.
  - reflexivity.
  - intros p n Hin Hp. apply list_elem_of_In in Hin. simpl in Hin.
    repeat (destruct Hin as [[= <- <-]|Hin]; [by vm_compute|]). destruct Hin.
Defined.

End Claims.

(* ================================================================== *)
(** ** Further properties of the two patterns *)

Section Patterns.

(** The names [log_format_regex] accepts are exactly those in which, at
    some place, an underscore and a date are followed by one character
    other than a line feed and by [log]. *)
Theorem classify_accepts_exactly name :
  is_Some (classify log_format_regex name) <->
  exists before date c after,
    is_date date = true /\ c <> LF /\
    name = before ++ str "_" ++ date ++ c :: str "log" ++ after.
Proof.
  split.
  - intros [service H].
    apply classify_Some_anchor in H as (i & n & _ & [s' Ha]).
    apply eat_tail_inv in Ha as (date & c & Hd & Hc & Heq).
    exists (take (i + n) name), date, c, s'. split_and!; [done..|].
    by rewrite <- Heq, take_drop.
  - intros (before & date & c & after & Hd & Hc & ->).
    apply (classify_is_Some _ (length before)).
    unfold anchor_at. rewrite drop_app_length. by rewrite eat_tail_date.
Qed.

(** The service is a piece of the name: it starts somewhere in it, holds
    no line feed, and at least the fifteen characters of the underscore,
    the date and the extension follow it. *)
Theorem classify_service_is_part_of_name name service :
  classify log_format_regex name = Some service ->
  exists i,
    service = take (length service) (drop i name) /\
    (LF ∉ service) /\
    i + length service + 15 <= length name /\
    forall c, c ∈ service -> c ∈ name.
Proof.
  rewrite classify_search. unfold search.
  destruct (search_from log_format_regex None name) as [m|] eqn:E; [|done].
  apply search_from_Some in E as (i & Hi & Hm & _).
  apply match_here_format in Hm as (n & Hn & Hlf & [s' Ha] & -> & _).
  intros [= <-]. rewrite length_drop in Hn.
  assert (length (take n (drop i name)) = n) as Hlen.
  { rewrite length_take, length_drop. lia. }
  exists i. rewrite Hlen. split_and!; [done|done| |].
  - apply eat_length in Ha. rewrite !length_drop in Ha.
    change (length tail_atoms) with 15 in Ha. lia.
  - intros c Hc. apply (subseteq_drop i name), (subseteq_take n (drop i name)), Hc.
Qed.

Lemma classify_service_is_part_of_name_witness :
  exists i,
    str "db_2023-12-31.log" = take (length (str "db_2023-12-31.log"))
                                (drop i (str "db_2023-12-31.log_2024-01-01.log")) /\
    (LF ∉ str "db_2023-12-31.log") /\
    i + length (str "db_2023-12-31.log") + 15 <= length (str "db_2023-12-31.log_2024-01-01.log") /\
    forall c, c ∈ str "db_2023-12-31.log" -> c ∈ str "db_2023-12-31.log_2024-01-01.log".
Proof.
  apply (classify_service_is_part_of_name (str "db_2023-12-31.log_2024-01-01.log")).
  reflexivity.
Defined.

Lemma is_word_lower c : is_word (lower c) = is_word c.
Proof. destruct c as [[] [] [] [] [] [] [] []]; by vm_compute. Qed.

Lemma word_opt_lower (o1 o2 : option ascii) :
  lower <$> o1 = lower <$> o2 -> word_opt o1 = word_opt o2.
Proof.
  destruct o1 as [c1|], o2 as [c2|]; simpl; try done.
  intros [= H]. by rewrite <- (is_word_lower c1), H, is_word_lower.
Qed.

Lemma fmap_head {A B} (f : A -> B) (l : list A) : f <$> head l = head (f <$> l).
Proof. by destruct l. Qed.

Lemma whole_word_at_case prev1 prev2 s1 s2 :
  lower <$> prev1 = lower <$> prev2 -> lower <$> s1 = lower <$> s2 ->
  whole_word_at prev1 s1 = whole_word_at prev2 s2.
Proof.
  intros Hp Hs. unfold whole_word_at.
  rewrite (word_opt_lower _ _ Hp), !fmap_take, Hs.
  rewrite (word_opt_lower (head (drop 5 s1)) (head (drop 5 s2))); [done|].
  by rewrite !fmap_head, !fmap_drop, Hs.
Qed.

Lemma whole_word_count_case s1 : forall s2 prev1 prev2,
  lower <$> prev1 = lower <$> prev2 -> lower <$> s1 = lower <$> s2 ->
  whole_word_count prev1 s1 = whole_word_count prev2 s2.
Proof.
  induction s1 as [|c1 s1 IH]; intros [|c2 s2] prev1 prev2 Hp Hs; try done.
  cbn [whole_word_count]. rewrite (whole_word_at_case _ _ _ _ Hp Hs).
  injection Hs as Hc Hs. f_equal. apply IH; [by simpl; f_equal|done].
Qed.

(** The count does not depend on the case of the letters: two texts that
    differ only in the case of ASCII letters have the same count. *)
Theorem count_ignores_case s1 s2 :
  lower <$> s1 = lower <$> s2 ->
  count_matches log_error_regex s1 = count_matches log_error_regex s2.
Proof. intros H. rewrite !count_matches_error. by apply whole_word_count_case. Qed.

Lemma count_ignores_case_witness :
  count_matches log_error_regex (str "Error: ERROR") =
  count_matches log_error_regex (str "error: error").
Proof. apply count_ignores_case. reflexivity. Defined.

Lemma whole_word_count_prev s prev1 prev2 :
  word_opt prev1 = word_opt prev2 ->
  whole_word_count prev1 s = whole_word_count prev2 s.
Proof.
  intros H. destruct s as [|c s]; [done|]. cbn [whole_word_count].
  unfold whole_word_at. by rewrite H.
Qed.

Lemma error_letter_word (c x : ascii) :
  lower c = x -> x ∈ str "error" -> is_word c = true.
Proof.
  intros <- Hin. apply lower_letter_word.
  apply list_elem_of_In in Hin. simpl in Hin.
  destruct Hin as [<-|[<-|[<-|[<-|[<-|[]]]]]]; done.
Qed.

(** A match cannot take in a character that is not a word character. *)
Lemma whole_word_at_app c s rest prev :
  is_word c = false ->
  whole_word_at prev (s ++ c :: rest) = whole_word_at prev s.
Proof.
  intros Hc. unfold whole_word_at.
  destruct (decide (5 <= length s)) as [Hlen|Hlen].
  - rewrite take_app_le by done. do 2 f_equal.
    destruct (decide (5 = length s)) as [Heq|Hne].
    + rewrite drop_app_length', drop_ge by lia. simpl. by rewrite Hc.
    + rewrite drop_app_le by lia.
      destruct (drop 5 s) eqn:E; [|done].
      apply (f_equal length) in E. rewrite length_drop in E. simpl in E. lia.
  - rewrite (bool_decide_eq_false_2 (lower <$> take 5 s = _)).
    2:{ intros H. apply (f_equal length) in H.
        rewrite length_fmap, length_take in H.
        change (length (str "error")) with 5 in H. lia. }
    rewrite (bool_decide_eq_false_2 (lower <$> take 5 (s ++ c :: rest) = _)).
    2:{ intros H.
        assert ((lower <$> take 5 (s ++ c :: rest)) !! length s = Some (lower c)) as Hl.
        { rewrite list_lookup_fmap, lookup_take_lt by lia.
          by rewrite lookup_app_r, Nat.sub_diag by lia. }
        rewrite H in Hl. apply list_elem_of_lookup_2 in Hl.
        by rewrite (error_letter_word c (lower c)) in Hc. }
    by rewrite !andb_false_r.
Qed.

Lemma whole_word_count_app c rest s : forall prev,
  is_word c = false ->
  whole_word_count prev (s ++ c :: rest) =
  whole_word_count prev s + whole_word_count None rest.
Proof.
  induction s as [|a s IH]; intros prev Hc.
  - cbn [app whole_word_count].
    pose proof (whole_word_at_app c [] rest prev Hc) as H0. cbn [app] in H0.
    rewrite H0.
    assert (whole_word_at prev [] = false) as ->.
    { unfold whole_word_at. rewrite (bool_decide_eq_false_2 _) by done.
      by rewrite andb_false_r. }
    simpl. apply whole_word_count_prev. simpl. by rewrite Hc.
  - change ((a :: s) ++ c :: rest) with (a :: (s ++ c :: rest)).
    cbn [whole_word_count].
    change (a :: (s ++ c :: rest)) with ((a :: s) ++ c :: rest).
    rewrite (whole_word_at_app c (a :: s) rest prev Hc), IH by done. lia.
Qed.

(** Counts add up across a character that is not a word character, a line
    feed for one: the count of a text is the sum of the counts of its
    lines. *)
Theorem count_adds_up_across_separator before c after :
  is_word c = false ->
  count_matches log_error_regex (before ++ c :: after) =
  count_matches log_error_regex before + count_matches log_error_regex after.
Proof. intros Hc. rewrite !count_matches_error. by apply whole_word_count_app. Qed.

Lemma count_adds_up_across_separator_witness :
  count_matches log_error_regex (str "an error" ++ LF :: str "Error again") =
  count_matches log_error_regex (str "an error") +
  count_matches log_error_regex (str "Error again").
Proof. apply count_adds_up_across_separator. reflexivity. Defined.

Lemma whole_word_count_bound n : forall s prev,
  length s <= n -> 5 * whole_word_count prev s <= length s.
Proof.
  induction n as [|n IH]; intros s prev Hn.
  - destruct s; simpl in *; lia.
  - destruct s as [|c s]; [simpl; lia|].
    destruct (whole_word_at prev (c :: s)) eqn:Hat.
    + rewrite (whole_word_count_skip _ _ Hat).
      unfold whole_word_at in Hat. rewrite !andb_true_iff in Hat.
      destruct Hat as [[_ He%bool_decide_eq_true_1] _].
      apply (f_equal length) in He. rewrite length_fmap, length_take in He.
      change (length (str "error")) with 5 in He.
      specialize (IH (drop 5 (c :: s)) (seen prev (take 5 (c :: s)))).
      rewrite length_drop in IH. simpl length in *. lia.
    + cbn [whole_word_count]. rewrite Hat. specialize (IH s (Some c)).
      simpl length in *. lia.
Qed.

(** Matches do not overlap: a text of [n] characters holds at most [n/5]
    of them. *)
Theorem count_is_bounded content :
  5 * count_matches log_error_regex content <= length content.
Proof. rewrite count_matches_error. by eapply whole_word_count_bound. Qed.

End Patterns.

(* ================================================================== *)
(** ** Further properties of routing *)

Section MoreRouting.

Variable re : pattern.

Implicit Types (w : world) (f g p : path).

Lemma mkdir_true_Ok p w w1 :
  mkdir true p w = (Ok tt, w1) ->
  blocked w p = false /\
  exists t1, make_dirs (tree w) [] p = Ok t1 /\ w1 = set_tree t1 w.
Proof.
  unfold mkdir. destruct (blocked w p); [done|]. cbn [negb andb].
  destruct (make_dirs (tree w) [] p) as [t1|]; [|done].
  intros [= <-]. eauto.
Qed.

(** The step of the loop for a regular file whose destination is free and
    that nothing forbids to move: the file goes to its destination with
    its content, its old entry is gone, every other entry stays, and
    nothing is printed. *)
Theorem route_moves_file f service c w w1 :
  classify re (name f) = Some service ->
  mkdir true (service_dir_made service) w = (Ok tt, w1) ->
  node_at (tree w) f = Some (File c) ->
  node_at (tree w1) (dest_of service f) = None ->
  blocked w (dest_of service f) = false ->
  blocked w f = false -> is_locked w f = false ->
  exists w2,
    route re f w = (Ok tt, w2) /\
    node_at (tree w2) (dest_of service f) = Some (File c) /\
    node_at (tree w2) f = None /\
    (forall p, p <> f -> p <> dest_of service f ->
       node_at (tree w2) p = node_at (tree w1) p) /\
    stdout w2 = stdout w /\ stderr w2 = stderr w.
Proof.
  intros Hc Hmk Hf Hd Hbd Hbf Hlf.
  apply mkdir_true_Ok in Hmk as (Hbm & t1 & Hm & ->).
  pose proof (make_dirs_node_at _ _ _ _ _ _ Hm Hf) as Hf1.
  pose proof (dirs_made_service_dir _ _ (make_dirs_made _ _ _ Hm)) as Hsd.
  cbn [tree set_tree] in Hd.
  assert (f <> dest_of service f) as Hne by congruence.
  assert (f <> []) as Hnil by (intros ->; done).
  exists (set_tree (put (dest_of service f) (File c) (remove f t1)) (set_tree t1 w)).
  split_and!.
  - rewrite route_eq, Hc, Hbm, Hm. unfold place, try, bind, path_exists.
    change (blocked (set_tree t1 w) (dest_of service f)) with (blocked w (dest_of service f)).
    rewrite Hbd. cbn [tree set_tree]. rewrite Hd.
    rewrite bool_decide_eq_false_2 by (by intros [? ?]).
    unfold move. cbn [tree set_tree]. rewrite Hd. cbn [is_directory andb].
    change (blocked (set_tree t1 w) f) with (blocked w f).
    rewrite Hf1, Hbf, way_dest; [done| |done]. by eapply make_dirs_made.
  - simpl. apply node_at_put_eq, dest_of_nonempty.
  - simpl. rewrite node_at_put_ne by done. by apply node_at_remove_eq.
  - intros p Hp1 Hp2. simpl. rewrite node_at_put_ne by done.
    by rewrite node_at_remove_ne.
  - done.
  - done.
Qed.




End MoreRouting.

Lemma route_moves_file_witness :
  exists w2,
    route log_format_regex (Sample.src ++ [Sample.auth1]) Sample.start = (Ok tt, w2) /\
    node_at (tree w2) (dest_of (str "auth") (Sample.src ++ [Sample.auth1]))
      = Some (File (str "boot ok. Error: disk full")) /\
    node_at (tree w2) (Sample.src ++ [Sample.auth1]) = None /\
    (forall p, p <> Sample.src ++ [Sample.auth1] ->
       p <> dest_of (str "auth") (Sample.src ++ [Sample.auth1]) ->
       node_at (tree w2) p =
       node_at (tree (snd (mkdir true (service_dir_made (str "auth")) Sample.start))) p) /\
    stdout w2 = stdout Sample.start /\ stderr w2 = stderr Sample.start.
Proof.
  apply (route_moves_file log_format_regex (Sample.src ++ [Sample.auth1]) (str "auth")
           (str "boot ok. Error: disk full") Sample.start
           (snd (mkdir true (service_dir_made (str "auth")) Sample.start)));
    reflexivity.
Defined.


Section RoutingRun.

Variable re : pattern.

Implicit Types (w : world) (f g p : path).

Lemma route_source_content g w wm :
  route re g w = (Ok tt, wm) -> routable re w g ->
  (forall n, node_at (tree w) g = Some n -> node_at (tree wm) g = Some n) \/
  (exists service c, classify re (name g) = Some service /\
     node_at (tree w) g = Some (File c) /\
     node_at (tree wm) (dest_of service g) = Some (File c)).
Proof.
  intros H Hr.
  destruct (route_shape _ _ _ _ H Hr) as (service & t1 & Hc & Hb & Hm & Hl & Hcase).
  destruct Hcase as [[-> _]|(c & Hg & Hd & Hbd & ->)].
  - left. intros n Hn. by eapply make_dirs_node_at.
  - right. exists service, c. split_and!; [done| |].
    + by destruct (make_dirs_new _ _ _ _ _ _ Hm Hg) as [?|[_ ?]].
    + apply node_at_put_eq, dest_of_nonempty.
Qed.

Lemma route_keeps_dest_node g w wm f service n :
  route re g w = (Ok tt, wm) -> routable re w g ->
  classify re (name f) = Some service ->
  node_at (tree w) (dest_of service f) = Some n ->
  node_at (tree wm) (dest_of service f) = Some n.
Proof.
  intros H Hr Hc Hn.
  destruct (decide (dest_of service f = g)) as [Heq|Hne]; [|by eapply route_keeps].
  destruct (route_source _ _ _ _ H Hr) as [Hsame|(s' & Hs' & _ & Habs & _)].
  - rewrite Heq in *. by apply Hsame.
  - exfalso. assert (name g = name f) as Hname by (by rewrite <- Heq, dest_of_name).
    rewrite Hname in Hs'. assert (s' = service) as -> by congruence.
    assert (dest_of service g = dest_of service f) as Hd.
    { unfold dest_of. by rewrite Hname. }
    congruence.
Qed.

Lemma run_keeps logs : forall w w1,
  for_each logs (route re) w = (Ok tt, w1) ->
  (forall f, f ∈ logs -> routable re w f) ->
  (forall p n, p ∉ logs -> node_at (tree w) p = Some n -> node_at (tree w1) p = Some n) /\
  (forall p c, held re w p c -> held re w1 p c).
Proof.
  induction logs as [|g rest IH]; intros w w1 H Hall; simpl in H.
  - injection H as <-. done.
  - unfold bind in H. destruct (route re g w) as [[[]|e] wm] eqn:Hg; [|done].
    assert (routable re w g) as Hrg by (apply Hall; left).
    destruct (IH wm w1 H) as (HA & HB).
    { intros f Hf. eapply route_keeps_routable; [done..|]. apply Hall. by right. }
    split.
    + intros p n Hp Hn. apply HA; [by intros ?; apply Hp; right|].
      eapply route_keeps; [done..|]. intros ->. apply Hp. left.
    + intros p c Hp. apply HB. destruct Hp as [Hp|(service & Hc & Hp)].
      * destruct (decide (p = g)) as [->|Hne]; [|left; by eapply route_keeps].
        destruct (route_source_content _ _ _ Hg Hrg) as [Hsame|(s' & c' & Hs' & Hc' & Hd)].
        -- left. by apply Hsame.
        -- right. exists s'. split; [done|]. congruence.
      * right. exists service. split; [done|]. by eapply route_keeps_dest_node.
Qed.

End RoutingRun.

(** A run of the routing loop over regular files that ends normally loses
    nothing: every entry that is not one of the routed files is as it was,
    and the content of every routed file is either still at its place or
    at its destination. *)
Theorem routing_keeps_contents log_regex logs w0 w1 :
  (forall f, f ∈ logs -> is_file (tree w0) f) ->
  organize_logs (Gen logs) log_regex w0 = (Ok tt, w1) ->
  (forall p n, p ∉ logs -> node_at (tree w0) p = Some n -> node_at (tree w1) p = Some n) /\
  (forall p c, p ∈ logs -> node_at (tree w0) p = Some (File c) ->
     node_at (tree w1) p = Some (File c) \/
     exists service, classify log_regex (name p) = Some service /\
       node_at (tree w1) (dest_of service p) = Some (File c)).
Proof.
  intros Hfiles Hrun. unfold organize_logs in Hrun. cbn [drain fst pending] in Hrun.
  destruct (run_keeps log_regex logs w0 w1 Hrun) as [HA HB].
  { intros f Hf. left. by apply Hfiles. }
  split; [done|]. intros p c _ Hp. apply (HB p c). by left.
Qed.

Lemma routing_keeps_contents_witness :
  (forall p n, p ∉ [Sample.src ++ [Sample.auth1]; Sample.src ++ [Sample.auth2]] ->
     node_at (tree Cases.collision) p = Some n ->
     node_at (tree (snd (organize_logs (Gen [Sample.src ++ [Sample.auth1]; Sample.src ++ [Sample.auth2]])
                           log_format_regex Cases.collision))) p = Some n) /\
  (forall p c, p ∈ [Sample.src ++ [Sample.auth1]; Sample.src ++ [Sample.auth2]] ->
     node_at (tree Cases.collision) p = Some (File c) ->
     node_at (tree (snd (organize_logs (Gen [Sample.src ++ [Sample.auth1]; Sample.src ++ [Sample.auth2]])
                           log_format_regex Cases.collision))) p = Some (File c) \/
     exists service, classify log_format_regex (name p) = Some service /\
       node_at (tree (snd (organize_logs (Gen [Sample.src ++ [Sample.auth1]; Sample.src ++ [Sample.auth2]])
                             log_format_regex Cases.collision))) (dest_of service p) = Some (File c)).
Proof.
  apply (routing_keeps_contents log_format_regex
           [Sample.src ++ [Sample.auth1]; Sample.src ++ [Sample.auth2]] Cases.collision).
  - intros f Hf. apply list_elem_of_In in Hf. simpl in Hf.
    destruct Hf as [<-|[<-|[]]]; eexists; reflexivity.
  - reflexivity.
Defined.

(** After such a run every routed file has been classified, its service
    directory is there, and its destination is taken unless a permission
    stood in the way (of looking at the destination or of moving the
    file). *)
Theorem routed_files_have_their_directory log_regex logs w0 w1 :
  (forall f, f ∈ logs -> is_file (tree w0) f) ->
  organize_logs (Gen logs) log_regex w0 = (Ok tt, w1) ->
  forall f, f ∈ logs ->
    exists service, classify log_regex (name f) = Some service /\
      node_at (tree w1) (service_dir service) = Some Dir /\
      parent (dest_of service f) = service_dir service /\
      (is_Some (node_at (tree w1) (dest_of service f)) \/
       blocked w0 (dest_of service f) = true \/
       blocked w0 f = true \/ is_locked w0 f = true).
Proof.
  intros Hfiles Hrun f Hf. unfold organize_logs in Hrun. cbn [drain fst pending] in Hrun.
  destruct (first_run log_regex logs w0 w1 Hrun) as (Hl & _ & _ & Hs).
  { intros g Hg. left. by apply Hfiles. }
  destruct (Hs f Hf) as (service & Hc & Hb & Hd & Hcase).
  exists service. split_and!; [done|by apply dirs_made_service_dir|apply dest_of_parent|].
  rewrite !(blocked_locked _ _ _ Hl) in Hcase.
  destruct Hcase as [?|[?|[? _]]]; [by right; left|by left|by do 2 right; left].
Qed.

Lemma routed_files_have_their_directory_witness :
  exists service, classify log_format_regex (name (Sample.src ++ [Sample.auth1])) = Some service /\
    node_at (tree (snd (organize_logs (Gen [Sample.src ++ [Sample.auth1]; Sample.src ++ [Sample.auth2]])
                          log_format_regex Sample.start))) (service_dir service) = Some Dir /\
    parent (dest_of service (Sample.src ++ [Sample.auth1])) = service_dir service /\
    (is_Some (node_at (tree (snd (organize_logs (Gen [Sample.src ++ [Sample.auth1]; Sample.src ++ [Sample.auth2]])
                          log_format_regex Sample.start))) (dest_of service (Sample.src ++ [Sample.auth1]))) \/
     blocked Sample.start (dest_of service (Sample.src ++ [Sample.auth1])) = true \/
     blocked Sample.start (Sample.src ++ [Sample.auth1]) = true \/
     is_locked Sample.start (Sample.src ++ [Sample.auth1]) = true).
Proof.
  apply (routed_files_have_their_directory log_format_regex
           [Sample.src ++ [Sample.auth1]; Sample.src ++ [Sample.auth2]] Sample.start).
  - intros f Hf. apply list_elem_of_In in Hf. simpl in Hf.
    destruct Hf as [<-|[<-|[]]]; eexists; reflexivity.
  - reflexivity.
  - apply list_elem_of_here.
Defined.

(* ================================================================== *)
(** ** Further properties of the audit *)

Section MoreAudit.

Variable error_regex : pattern.

Implicit Types (w : world) (p report : path).

Lemma audit_step_only_report report logfile w r w1 :
  audit error_regex report logfile w = (r, w1) ->
  locked w1 = locked w /\ cwd w1 = cwd w /\
  forall p, p <> report -> node_at (tree w1) p = node_at (tree w) p.
Proof.
  unfold audit, bind, read_text.
  assert (forall c, fwrite report c w = (r, w1) ->
            locked w1 = locked w /\ cwd w1 = cwd w /\
            forall p, p <> report -> node_at (tree w1) p = node_at (tree w) p) as Hw.
  { intros c. unfold fwrite. destruct (node_at (tree w) report) as [[c0|]|].
    - intros [= <- <-]. split_and!; [done..|]. intros p Hp. simpl. by apply node_at_put_ne.
    - by intros [= <- <-].
    - by intros [= <- <-]. }
  destruct (blocked w logfile); [by intros [= <- <-]|].
  destruct (node_at (tree w) logfile) as [[c|]|]; [|by intros [= <- <-]..].
  destruct (is_locked w logfile); [by intros [= <- <-]|]. apply Hw.
Qed.

Lemma audit_loop_only_report report logs : forall w r w1,
  for_each logs (audit error_regex report) w = (r, w1) ->
  locked w1 = locked w /\ cwd w1 = cwd w /\
  forall p, p <> report -> node_at (tree w1) p = node_at (tree w) p.
Proof.
  induction logs as [|l rest IH]; intros w r w1 H; simpl in H.
  - by injection H as <- <-.
  - unfold bind in H.
    destruct (audit error_regex report l w) as [[[]|e] wm] eqn:Hs.
    + apply audit_step_only_report in Hs as (Hl & Hc & Hn).
      apply IH in H as (Hl' & Hc' & Hn').
      split_and!; [congruence..|]. intros p Hp. by rewrite Hn', Hn.
    + injection H as <- <-. by eapply audit_step_only_report.
Qed.

(** Whatever happens during the audit, it changes no entry of the tree
    other than the report file. *)
Theorem audit_touches_only_report root report w r w1 :
  find_error_in_logs root error_regex report w = (r, w1) ->
  forall p, p <> report -> node_at (tree w1) p = node_at (tree w) p.
Proof.
  unfold find_error_in_logs, try, bind.
  assert (forall e (wx : world) r' w',
            match audit_errors e with
            | Some k => k wx
            | None => (Raise e, wx)
            end = (r', w') -> tree w' = tree wx) as Hcatch.
  { intros e wx r' w'. destruct e; simpl; by intros [= <- <-]. }
  destruct (open_w report w) as [[[]|e] w0] eqn:Hopen.
  2:{ intros H p Hp. apply Hcatch in H. rewrite H.
      by rewrite (open_w_Raise _ _ _ _ Hopen). }
  apply open_w_Ok in Hopen as ->.
  assert (forall p, p <> report ->
            node_at (tree (set_tree (put report (File []) (tree w)) w)) p = node_at (tree w) p)
    as Hopened.
  { intros p Hp. simpl. by apply node_at_put_ne. }
  set (w0 := set_tree _ w) in *.
  unfold rglob_log. destruct (blocked w0 root).
  { intros H p Hp. apply Hcatch in H. rewrite H. by apply Hopened. }
  cbn [drain fst pending].
  destruct (for_each _ _ w0) as [[[]|e] w2] eqn:Hloop.
  - intros [= <- <-] p Hp.
    apply audit_loop_only_report in Hloop as (_ & _ & Hn). by rewrite Hn, Hopened.
  - intros H p Hp. apply Hcatch in H. rewrite H.
    apply audit_loop_only_report in Hloop as (_ & _ & Hn). by rewrite Hn, Hopened.
Qed.

Lemma read_text_error p w e :
  fst (read_text p w) = Raise e ->
  read_text p w = (Raise e, w) /\ audit_errors e = Some (eprint (Error_exn e)).
Proof.
  unfold read_text. destruct (blocked w p); [by intros [= <-]|].
  destruct (node_at (tree w) p) as [[c|]|]; [|by intros [= <-]..].
  destruct (is_locked w p); [by intros [= <-]|done].
Qed.

Lemma read_text_same p w w1 :
  locked w1 = locked w -> node_at (tree w1) p = node_at (tree w) p ->
  fst (read_text p w1) = fst (read_text p w).
Proof.
  intros Hl Hn. unfold read_text.
  rewrite (blocked_locked _ _ _ Hl), (is_locked_locked _ _ _ Hl), Hn.
  destruct (blocked w p); [done|].
  destruct (node_at (tree w) p) as [[c|]|]; [|done..].
  by destruct (is_locked w p).
Qed.

(** The audit ends at the first listed file it cannot read: the report
    holds the lines of the files listed before it, the exception is
    printed, and the call returns normally. *)
Theorem audit_ends_at_first_unreadable root report w w0 before bad after e :
  report <> [] -> open_w report w = (Ok tt, w0) ->
  blocked w root = false ->
  logs_below root w0 = before ++ bad :: after ->
  report ∉ before -> bad <> report ->
  (forall p, p ∈ before -> readable w0 p) ->
  fst (read_text bad w0) = Raise e ->
  find_error_in_logs root error_regex report w =
  (Ok tt, add_err [Error_exn e]
            (set_tree (put report
                         (File (concat ((fun p => report_line (name p)
                                          (count_matches error_regex (content (tree w0) p)))
                                        <$> before)))
                         (tree w)) w)).
Proof.
  intros Hne Hopen Hroot Hlogs Hnotin Hbad Hall He.
  apply (find_error_in_logs_stops error_regex root report w w0 before bad after e);
    try done.
  - intros w1 Hl Hn.
    pose proof (read_text_same bad w0 w1 Hl (Hn bad Hbad)) as Hsame.
    rewrite He in Hsame. by apply read_text_error in Hsame as [? _].
  - by apply read_text_error in He as [_ ?].
Qed.

Lemma way_errors w p steps e :
  way w p steps = Some e ->
  e = FileNotFoundError p \/ e = PermissionError p \/ e = NotADirectoryError p.
Proof.
  induction steps as [|k steps IH]; simpl; [done|].
  destruct (node_at (tree w) (take k p)) as [[c|]|].
  - intros [= <-]. by do 2 right.
  - destruct (is_locked w (take k p)); [|done]. intros [= <-]. by right; left.
  - intros [= <-]. by left.
Qed.

(** When the report cannot be opened, no file is read and the tree is as
    it was. When the report path is a directory, lacks a directory on the
    way or is denied to the process, the exception is printed and the call
    returns normally. When a regular file stands on the way to the report,
    [open] raises [NotADirectoryError], which no clause of the function
    names: the call ends with that exception and prints nothing. *)
Theorem audit_without_report root report w :
  (forall e, fst (open_w report w) = Raise e ->
     (e = IsADirectoryError report \/ e = FileNotFoundError report \/
      e = PermissionError report \/ e = NotADirectoryError report) /\
     find_error_in_logs root error_regex report w =
     match e with
     | NotADirectoryError _ => (Raise e, w)
     | _ => (Ok tt, add_err [Error_exn e] w)
     end) /\
  (forall k c, k < length report ->
     node_at (tree w) (take k report) = Some (File c) ->
     (forall j, j < k ->
        node_at (tree w) (take j report) = Some Dir /\ is_locked w (take j report) = false) ->
     find_error_in_logs root error_regex report w =
     (Raise (NotADirectoryError report), w)).
Proof.
  split.
  - intros e. unfold find_error_in_logs, try, bind, open_w.
    destruct (way w report (seq 0 (length report))) as [e0|] eqn:Hw.
    { intros [= <-]. destruct (way_errors _ _ _ _ Hw) as [->|[->| ->]]; split; auto. }
    destruct (node_at (tree w) report) as [[c|]|].
    + destruct (is_locked w report); [|by cbn [fst]]. intros [= <-]. split; auto.
    + intros [= <-]. split; auto.
    + by cbn [fst].
  - intros k c Hk Hf Hdirs. unfold find_error_in_logs, try, bind, open_w.
    by rewrite (way_under_file _ _ _ _ Hk Hf Hdirs).
Qed.

(** Auditing again an unchanged tree rewrites the same report: the
    report is replaced, not extended. *)
Theorem audit_twice_same_report root report w w0 w1 :
  report <> [] -> open_w report w = (Ok tt, w0) ->
  is_locked w report = false ->
  blocked w root = false ->
  report ∉ logs_below root w0 ->
  (forall p, p ∈ logs_below root w0 -> readable w0 p) ->
  find_error_in_logs root error_regex report w = (Ok tt, w1) ->
  find_error_in_logs root error_regex report w1 = (Ok tt, w1).
Proof.
  intros Hne Hopen Hl Hroot Hnotin Hall Hfirst.
  rewrite (find_error_in_logs_all error_regex root report w w0) in Hfirst by done.
  injection Hfirst as <-.
  pose proof (open_w_Ok _ _ _ Hopen) as Hw0.
  set (lines := concat _).
  assert (open_w report (set_tree (put report (File lines) (tree w)) w) = (Ok tt, w0)) as Hopen1.
  { unfold open_w.
    rewrite way_put by (intros k Hk%elem_of_seq; lia).
    change (is_locked (set_tree (put report (File lines) (tree w)) w) report)
      with (is_locked w report).
    assert (way w report (seq 0 (length report)) = None) as ->.
    { unfold open_w in Hopen. by destruct (way w report _). }
    cbn [tree set_tree]. rewrite node_at_put_eq by done. rewrite Hl.
    rewrite put_put. by rewrite Hw0. }
  rewrite (find_error_in_logs_all error_regex root report _ w0); try done.
  cbn [tree set_tree]. by rewrite put_put.
Qed.

End MoreAudit.

Lemma audit_ends_at_first_unreadable_witness :
  find_error_in_logs DEST_DIR log_error_regex Cases.report Cases.unreadable_first =
  (Ok tt, add_err [Error_exn (PermissionError Cases.a_log)]
            (set_tree (put Cases.report
                         (File (concat ((fun p => report_line (name p)
                                          (count_matches log_error_regex
                                             (content (tree (snd (open_w Cases.report Cases.unreadable_first))) p)))
                                        <$> [])))
                         (tree Cases.unreadable_first)) Cases.unreadable_first)).
Proof.
  apply (audit_ends_at_first_unreadable log_error_regex DEST_DIR Cases.report
           Cases.unreadable_first (snd (open_w Cases.report Cases.unreadable_first))
           [] Cases.a_log [Cases.b_log] (PermissionError Cases.a_log)).
  - discriminate.
  - reflexivity.
  - reflexivity.
  - reflexivity.
  - apply not_elem_of_nil.
  - discriminate.
  - intros p Hp. by apply elem_of_nil in Hp.
  - reflexivity.
Defined.

Lemma audit_touches_only_report_witness :
  node_at (tree (snd (find_error_in_logs DEST_DIR log_error_regex Cases.report
                        Cases.unreadable_first))) Cases.b_log =
  node_at (tree Cases.unreadable_first) Cases.b_log.
Proof.
  apply (audit_touches_only_report log_error_regex DEST_DIR Cases.report
           Cases.unreadable_first
           (fst (find_error_in_logs DEST_DIR log_error_regex Cases.report
                   Cases.unreadable_first))).
  - reflexivity.
  - discriminate.
Defined.

Lemma audit_without_report_witness :
  find_error_in_logs DEST_DIR log_error_regex DEST_DIR Cases.classified =
    (Ok tt, add_err [Error_exn (IsADirectoryError DEST_DIR)] Cases.classified) /\
  find_error_in_logs DEST_DIR log_error_regex Cases.report_under_file Cases.classified =
    (Raise (NotADirectoryError Cases.report_under_file), Cases.classified).
Proof.
  split.
  - apply (proj1 (audit_without_report log_error_regex DEST_DIR DEST_DIR Cases.classified)
             (IsADirectoryError DEST_DIR)).
    reflexivity.
  - apply (proj2 (audit_without_report log_error_regex DEST_DIR Cases.report_under_file
                    Cases.classified)
             6 (str "error: disk full; ERROR: again")).
    + simpl. lia.
    + reflexivity.
    + intros j Hj. do 6 (destruct j as [|j]; [split; reflexivity|]). lia.
Defined.

Lemma audit_twice_same_report_witness :
  find_error_in_logs DEST_DIR log_error_regex Cases.report
    (snd (find_error_in_logs DEST_DIR log_error_regex Cases.report Cases.classified)) =
  (Ok tt, snd (find_error_in_logs DEST_DIR log_error_regex Cases.report Cases.classified)).
Proof.
  apply (audit_twice_same_report log_error_regex DEST_DIR Cases.report Cases.classified
           (snd (open_w Cases.report Cases.classified))).
  - discriminate.
  - reflexivity.
  - reflexivity.
  - reflexivity.
  - apply (bool_decide_unpack _). vm_compute. exact I.
  - intros p Hp. apply list_elem_of_In in Hp. vm_compute in Hp.
    destruct Hp as [<-|[<-|[]]]; (split_and!; [reflexivity|reflexivity|eexists; reflexivity]).
  - reflexivity.
Defined.

(* ================================================================== *)
(** ** Further properties of the main block *)

Section MoreMain.

Implicit Types (w : world) (dir p : path).

(** Without an argument, or with one that names nothing or names a
    regular file, the script prints its complaint and exits with status 1;
    no question is asked and the tree is as it was. *)
Theorem main_checks_its_argument script w :
  main script [] w = (Raise (SystemExit 1), add_err [Must_specify] w) /\
  (forall dir more,
     blocked w dir = false -> node_at (tree w) dir = None ->
     main script (dir :: more) w =
     (Raise (SystemExit 1), add_err [Cannot_access script dir] w)) /\
  (forall dir more c,
     blocked w dir = false -> node_at (tree w) dir = Some (File c) ->
     main script (dir :: more) w =
     (Raise (SystemExit 1), add_err [Not_a_directory script dir] w)).
Proof.
  split_and!.
  - done.
  - intros dir more Hb Hn. unfold main, bind at 1, path_exists at 1.
    rewrite Hb, Hn. by rewrite bool_decide_eq_false_2 by (by intros [? ?]).
  - intros dir more c Hb Hn. unfold main, bind at 1, path_exists at 1.
    rewrite Hb, Hn. rewrite bool_decide_eq_true_2 by done. cbn [negb].
    unfold bind at 1, is_dir at 1. by rewrite Hb, Hn.
Qed.

(** Answering no at a prompt ends the script with [Aborted.] and status
    1 before anything is listed, moved or written: at the prompt about
    overwriting the report; at the prompt about creating the destination
    directory when the report is not there; and at that second prompt
    after a yes at the first. *)
Theorem declined_prompt_aborts script dir more later w :
  node_at (tree w) dir = Some Dir -> blocked w dir = false ->
  blocked w (REPORT_FILE w) = false ->
  (is_Some (node_at (tree w) (REPORT_FILE w)) ->
   answers w = false :: later ->
   main script (dir :: more) w =
   (Raise (SystemExit 1),
    World (tree w) (locked w) (cwd w) later
          (stdout w ++ [Prompt_overwrite (str "reporte.txt"); Aborted]) (stderr w))) /\
  (node_at (tree w) (REPORT_FILE w) = None ->
   blocked w DEST_DIR = false -> node_at (tree w) DEST_DIR = None ->
   answers w = false :: later ->
   main script (dir :: more) w =
   (Raise (SystemExit 1),
    World (tree w) (locked w) (cwd w) later
          (stdout w ++ [Prompt_create DEST_DIR; Aborted])
          (stderr w ++ [No_destination script DEST_DIR]))) /\
  (is_Some (node_at (tree w) (REPORT_FILE w)) ->
   blocked w DEST_DIR = false -> node_at (tree w) DEST_DIR = None ->
   answers w = true :: false :: later ->
   main script (dir :: more) w =
   (Raise (SystemExit 1),
    World (tree w) (locked w) (cwd w) later
          (stdout w ++ [Prompt_overwrite (str "reporte.txt"); Prompt_create DEST_DIR; Aborted])
          (stderr w ++ [No_destination script DEST_DIR]))).
Proof.
  intros Hdir Hb Hbr.
  assert (forall k : M unit,
    main script (dir :: more) w =
    (report_file <- get REPORT_FILE ;;
     report_found <- path_exists report_file ;;
     (if report_found then
        answer <- inputYesNo (Prompt_overwrite (name report_file)) ;;
        if negb answer then print Aborted ;; sys_exit 1 else ret tt
      else ret tt) ;;
     dest_found <- path_exists DEST_DIR ;;
     (if negb dest_found then
        eprint (No_destination script DEST_DIR) ;;
        answer <- inputYesNo (Prompt_create DEST_DIR) ;;
        try (if answer then mkdir false DEST_DIR
             else print Aborted ;; sys_exit 1)
            (fun e => match e with
                      | PermissionError _ =>
                          Some (eprint (Cannot_create script DEST_DIR e) ;; sys_exit 1)
                      | _ => None
                      end)
      else ret tt) ;;
     run_pipeline script dir) w) as Hmain.
  { intros _. unfold main, bind at 1, path_exists at 1.
    rewrite Hb, Hdir. rewrite bool_decide_eq_true_2 by done. cbn [negb].
    unfold bind at 1, is_dir at 1. by rewrite Hb, Hdir. }
  rewrite (Hmain (ret tt)). clear Hmain.
  split_and!.
  - intros Hex Hans.
    unfold bind at 1, get at 1. unfold bind at 1, path_exists at 1. rewrite Hbr.
    rewrite bool_decide_eq_true_2 by done.
    unfold bind at 1. unfold bind at 1. unfold inputYesNo, bind at 1, print at 1.
    cbn [answers]. rewrite Hans. cbn [negb].
    unfold bind, print, sys_exit, raise. cbn [tree locked cwd answers stdout stderr].
    unfold REPORT_FILE. rewrite name_snoc. by rewrite <- app_assoc.
  - intros Hno Hbd Hnd Hans.
    unfold bind at 1, get at 1. unfold bind at 1, path_exists at 1. rewrite Hbr.
    rewrite bool_decide_eq_false_2 by (rewrite Hno; by intros [? ?]).
    unfold bind at 1. unfold ret at 1. unfold bind at 1, path_exists at 1.
    rewrite Hbd, Hnd. rewrite bool_decide_eq_false_2 by (by intros [? ?]). cbn [negb].
    unfold bind at 1. unfold bind at 1, eprint at 1. unfold bind at 1.
    unfold inputYesNo, bind at 1, print at 1. cbn [answers]. rewrite Hans.
    unfold try, bind, print, sys_exit, raise. cbn [tree locked cwd answers stdout stderr].
    by rewrite <- app_assoc.
  - intros Hex Hbd Hnd Hans.
    unfold bind at 1, get at 1. unfold bind at 1, path_exists at 1. rewrite Hbr.
    rewrite bool_decide_eq_true_2 by done.
    unfold bind at 1. unfold bind at 1. unfold inputYesNo, bind at 1, print at 1.
    cbn [answers]. rewrite Hans. cbn [negb]. unfold ret at 1.
    unfold bind at 1, path_exists at 1.
    cbn [tree locked cwd answers stdout stderr].
    match goal with
    | |- context [blocked ?w1 DEST_DIR] => change (blocked w1 DEST_DIR) with (blocked w DEST_DIR)
    end.
    rewrite Hbd, Hnd. rewrite bool_decide_eq_false_2 by (by intros [? ?]). cbn [negb].
    unfold bind at 1. unfold bind at 1, eprint at 1. unfold bind at 1.
    unfold inputYesNo, bind at 1, print at 1. cbn [tree locked cwd answers stdout stderr].
    unfold try, bind, print, sys_exit, raise. cbn [tree locked cwd answers stdout stderr].
    unfold REPORT_FILE. rewrite name_snoc. by rewrite <- !app_assoc.
Qed.

Lemma main_outcome script args w r w' :
  main script args w = (r, w') ->
  (exists e, r = Raise e /\ tree w' = tree w) \/
  (exists dir w2, run_pipeline script dir w2 = (r, w') /\ cwd w2 = cwd w /\
     (tree w2 = tree w \/ make_dirs (tree w) [] DEST_DIR = Ok (tree w2))).
Proof.
  intros H. destruct args as [|dir rest]; [injection H as <- <-; left; eauto|].
  unfold main in H.
  unfold bind at 1 in H. unfold path_exists at 1 in H.
  destruct (blocked w dir) eqn:Hb; [injection H as <- <-; left; eauto|].
  destruct (bool_decide (is_Some (node_at (tree w) dir))); cbn [negb] in H.
  2:{ injection H as <- <-; left; eauto. }
  unfold bind at 1 in H. unfold is_dir at 1 in H. rewrite Hb in H.
  destruct (is_directory (node_at (tree w) dir)); cbn [negb] in H.
  2:{ injection H as <- <-; left; eauto. }
  unfold bind at 1 in H. unfold get at 1 in H.
  unfold bind at 1 in H. unfold path_exists at 1 in H.
  destruct (blocked w (REPORT_FILE w)); [injection H as <- <-; left; eauto|].
  unfold bind at 1 in H.
  set (ask := if bool_decide (is_Some (node_at (tree w) (REPORT_FILE w))) then _ else _) in H.
  assert (exists ra wa, ask w = (ra, wa) /\ tree wa = tree w /\ locked wa = locked w /\
            cwd wa = cwd w) as (ra & wa & Ha & Hta & Hla & Hca).
  { unfold ask. case_bool_decide; [|by eexists _, _].
    unfold bind, inputYesNo, bind, print. simpl.
    destruct (answers w) as [|[] ?]; simpl; by eexists _, _. }
  rewrite Ha in H. destruct ra as [[]|e]; [|injection H as <- <-; left; eauto].
  unfold bind at 1 in H. unfold path_exists at 1 in H.
  rewrite (blocked_locked _ _ _ Hla) in H.
  destruct (blocked w DEST_DIR) eqn:Hbd; [injection H as <- <-; left; eauto|].
  unfold bind at 1 in H.
  case_bool_decide as Hex; cbn [negb] in H.
  { unfold ret in H. right. exists dir, wa. split; [done|]. split; [done|]. by left. }
  revert H. unfold bind at 1. unfold eprint at 1. unfold bind at 1.
  unfold inputYesNo, bind at 1, print at 1. cbn [answers tree locked cwd stdout stderr].
  destruct (answers wa) as [|a more]; [intros [= <- <-]; left; eauto|].
  set (wq := World (tree wa) (locked wa) (cwd wa) more
               (stdout wa ++ [Prompt_create DEST_DIR])
               (stderr wa ++ [No_destination script DEST_DIR])).
  assert (blocked wq DEST_DIR = false) as Hbq by (rewrite <- Hbd; by apply blocked_locked).
  unfold try, mkdir. cbn [negb andb].
  destruct a.
  - cbv beta. rewrite Hbq. change (tree wq) with (tree wa).
    rewrite (bool_decide_eq_false_2 _ Hex), Hta.
    destruct (make_dirs (tree w) [] DEST_DIR) as [t1|e] eqn:Hm.
    + intros H. right. exists dir, (set_tree t1 wq). split; [exact H|]. split; [done|]. by right.
    + destruct e; simpl; intros [= <- <-]; left; eauto.
  - simpl. intros [= <- <-]. left. eauto.
Qed.

Lemma audit_only_touches_only_report script dir w r w' :
  audit_only script dir w = (r, w') ->
  forall p, p <> REPORT_FILE w -> node_at (tree w') p = node_at (tree w) p.
Proof.
  unfold audit_only, try, bind, glob_log.
  destruct (blocked w dir); [by intros [= <- <-]|].
  cbn [pending].
  destruct (length _ =? 0); [by intros [= <- <-]|].
  unfold print at 1, get at 1.
  set (w1 := World _ _ _ _ _ _).
  change (REPORT_FILE w1) with (REPORT_FILE w).
  destruct (find_error_in_logs DEST_DIR log_error_regex (REPORT_FILE w) w1)
    as [[[]|e] w2] eqn:Hfind.
  - intros [= <- <-] p Hp.
    by rewrite (audit_touches_only_report _ _ _ _ _ _ Hfind p Hp).
  - intros H p Hp.
    assert (tree w' = tree w2) as ->.
    { destruct e; simpl in H; by injection H as <- <-. }
    by rewrite (audit_touches_only_report _ _ _ _ _ _ Hfind p Hp).
Qed.

(** Whatever its arguments, the replies and the tree, a run of the script
    puts no regular file anywhere, takes none away and changes none,
    except the report file: no log file is ever moved. *)
Theorem main_moves_no_file script args w r w' :
  main script args w = (r, w') ->
  forall p c, p <> REPORT_FILE w ->
    node_at (tree w') p = Some (File c) <-> node_at (tree w) p = Some (File c).
Proof.
  intros H p c Hp.
  destruct (main_outcome _ _ _ _ _ H) as [(e & _ & ->)|(dir & w2 & Hrun & Hc & Hw2)]; [done|].
  rewrite run_pipeline_audit_only in Hrun.
  assert (REPORT_FILE w2 = REPORT_FILE w) as Hrep by (unfold REPORT_FILE; by rewrite Hc).
  rewrite (audit_only_touches_only_report _ _ _ _ _ Hrun p) by (by rewrite Hrep).
  destruct Hw2 as [->|Hm]; [done|].
  apply (make_dirs_same_files _ _ _ _ Hm).
Qed.

End MoreMain.

Lemma main_checks_its_argument_witness :
  main Cases.script [Sample.src ++ [Sample.auth1]] Sample.start =
  (Raise (SystemExit 1),
   add_err [Not_a_directory Cases.script (Sample.src ++ [Sample.auth1])] Sample.start).
Proof.
  apply (proj2 (proj2 (main_checks_its_argument Cases.script Sample.start))
           (Sample.src ++ [Sample.auth1]) [] (str "boot ok. Error: disk full"));
    reflexivity.
Defined.

Lemma declined_prompt_aborts_witness :
  main Cases.script [Sample.src] Cases.asked =
    (Raise (SystemExit 1),
     World (tree Cases.asked) (locked Cases.asked) (cwd Cases.asked) []
           (stdout Cases.asked ++ [Prompt_overwrite (str "reporte.txt"); Aborted])
           (stderr Cases.asked)) /\
  main Cases.script [Sample.src] Cases.no_dest =
    (Raise (SystemExit 1),
     World (tree Cases.no_dest) (locked Cases.no_dest) (cwd Cases.no_dest) []
           (stdout Cases.no_dest ++ [Prompt_create DEST_DIR; Aborted])
           (stderr Cases.no_dest ++ [No_destination Cases.script DEST_DIR])) /\
  main Cases.script [Sample.src] Cases.asked_twice =
    (Raise (SystemExit 1),
     World (tree Cases.asked_twice) (locked Cases.asked_twice) (cwd Cases.asked_twice) []
           (stdout Cases.asked_twice ++
              [Prompt_overwrite (str "reporte.txt"); Prompt_create DEST_DIR; Aborted])
           (stderr Cases.asked_twice ++ [No_destination Cases.script DEST_DIR])).
Proof.
  split_and!.
  - apply (proj1 (declined_prompt_aborts Cases.script Sample.src [] [] Cases.asked
                    eq_refl eq_refl eq_refl)).
    + eexists. reflexivity.
    + reflexivity.
  - apply (proj1 (proj2 (declined_prompt_aborts Cases.script Sample.src [] [] Cases.no_dest
                           eq_refl eq_refl eq_refl)));
      reflexivity.
  - apply (proj2 (proj2 (declined_prompt_aborts Cases.script Sample.src [] [] Cases.asked_twice
                           eq_refl eq_refl eq_refl))).
    + eexists. reflexivity.
    + reflexivity.
    + reflexivity.
    + reflexivity.
Defined.

Lemma main_moves_no_file_witness :
  node_at (tree (snd (main Cases.script [Sample.src] Sample.start))) (Sample.src ++ [Sample.auth1])
    = Some (File (str "boot ok. Error: disk full")) <->
  node_at (tree Sample.start) (Sample.src ++ [Sample.auth1])
    = Some (File (str "boot ok. Error: disk full")).
Proof.
  apply (main_moves_no_file Cases.script [Sample.src] Sample.start
           (fst (main Cases.script [Sample.src] Sample.start))).
  - reflexivity.
  - discriminate.
Defined.
